(** * mailtable.js: the self-refreshing mail table

    A shallow embedding of [src/mails/static/js/mailtable.js] and the
    properties of its request interceptor, due-date updater, search filter,
    initializer and refresh loop.

    The script is jQuery glue around a DOM, so the development has three
    layers: JavaScript strings and values, a small model of the DOM and of
    the jQuery calls the script makes, and the script itself, function by
    function, as state transformers over a page state. *)

From Stdlib Require Import String Ascii.
From stdpp Require Import base list option strings.

Set Warnings "-register-all".

(** [String.append] reduces on a constructor, as the proofs below expect. *)
#[local] Arguments String.append !_ _ / : simpl nomatch.

(** ** JavaScript values and strings *)

(** Strings are sequences of code units; the model covers the code units
    below 256, which [ascii] enumerates. *)

(** The values the script passes around: the result of [.val()] and
    [.attr()] is a string or [undefined], [getCookie] starts from [null]. *)
Inductive jsval : Type :=
  | JUndefined
  | JNull
  | JString (s : string).

Global Instance jsval_eq_dec : EqDecision jsval.
Proof. solve_decision. Defined.

(** [ToString], as applied by [+] with a string operand. *)
Definition to_string (v : jsval) : string :=
  match v with
  | JUndefined => "undefined"
  | JNull => "null"
  | JString s => s
  end.

(** [ToBoolean]: [undefined], [null] and the empty string are falsy. *)
Definition truthy (v : jsval) : bool :=
  match v with
  | JUndefined | JNull => false
  | JString s => negb (String.eqb s "")
  end.

(** Every code unit of the string passes the test. *)
Fixpoint all_chars (P : ascii → bool) (s : string) : bool :=
  match s with
  | EmptyString => true
  | String c s' => P c && all_chars P s'
  end.

(** [s.substring(k)]: the code units from index [k] on. *)
Fixpoint substring_from (k : nat) (s : string) : string :=
  match k, s with
  | 0, _ => s
  | S _, EmptyString => EmptyString
  | S k', String _ s' => substring_from k' s'
  end.

(** [s.split(sep)] for a one-character separator. *)
Fixpoint split (sep : ascii) (s : string) : list string :=
  match s with
  | EmptyString => [EmptyString]
  | String c s' =>
      if Ascii.eqb c sep then EmptyString :: split sep s'
      else match split sep s' with
           | [] => [String c EmptyString]
           | x :: xs => String c x :: xs
           end
  end.

(** The white space of [jQuery.trim] ([\s], U+FEFF and U+00A0) that lies
    below 256: tab, line feed, vertical tab, form feed, carriage return,
    space and no-break space. *)
Definition is_space (c : ascii) : bool :=
  let n := nat_of_ascii c in
  (Nat.leb 9 n && Nat.leb n 13) || Nat.eqb n 32 || Nat.eqb n 160.

Fixpoint trim_left (s : string) : string :=
  match s with
  | EmptyString => EmptyString
  | String c s' => if is_space c then trim_left s' else s
  end.

Fixpoint trim_right (s : string) : string :=
  match s with
  | EmptyString => EmptyString
  | String c s' =>
      match trim_right s' with
      | EmptyString => if is_space c then EmptyString else String c EmptyString
      | t => String c t
      end
  end.

(** [jQuery.trim]. *)
Definition trim (s : string) : string := trim_right (trim_left s).

(** ** The host

    The script calls three functions of the browser and of jQuery on
    strings the page supplies: [decodeURIComponent], [new RegExp] and the
    selector engine behind [$].  Each is modelled where its answer is
    plain, and is a parameter of the development elsewhere.  Each of them
    can throw. *)
Inductive exn : Type :=
  | URIError          (* [decodeURIComponent] on a malformed escape *)
  | SyntaxError       (* [new RegExp] on a malformed pattern *)
  | SelectorError.    (* [$] on an expression the engine does not recognize *)

(** What a call answers: a value, or the exception it throws. *)
Inductive completion (A : Type) : Type :=
  | Normal (a : A)
  | Throw (e : exn).
Arguments Normal {A} a.
Arguments Throw {A} e.

Section Script.

(** *** Regular expressions

    The script builds [new RegExp(key, 'i')] from the search field.  A
    pattern without syntax characters matches as literal text, up to case;
    what any other pattern does, or that it is malformed, is the
    host's. *)
Variable host_RegExp : string → completion (string → bool).

Definition syntax_characters : list ascii :=
  list_ascii_of_string "^$\.*+?()[]{}|".

Definition is_syntax_character (c : ascii) : bool :=
  existsb (Ascii.eqb c) syntax_characters.

Definition literal_pattern (p : string) : bool :=
  all_chars (λ c, negb (is_syntax_character c)) p.

(** [Canonicalize] under the [i] flag: the upper-case form of a code unit.
    Below 256 that moves a-z and the accented lower-case letters (0xE0-0xFE
    but the division sign 0xF7) down by 32.  0xB5 and 0xFF have upper-case
    forms above 255 that no other code unit below 256 shares, and 0xDF has
    none of length one, so the three stand for themselves. *)
Definition canonicalize (c : ascii) : ascii :=
  let n := nat_of_ascii c in
  if (Nat.leb 97 n && Nat.leb n 122)
     || (Nat.leb 224 n && Nat.leb n 254 && negb (Nat.eqb n 247))
  then ascii_of_nat (n - 32)
  else c.

(** The literal pattern matches at the head of the subject. *)
Fixpoint match_here (pat s : string) : bool :=
  match pat with
  | EmptyString => true
  | String p pat' =>
      match s with
      | EmptyString => false
      | String c s' =>
          Ascii.eqb (canonicalize p) (canonicalize c) && match_here pat' s'
      end
  end.

(** [regex.test(s)] for a literal pattern without the [g] flag: a match
    is tried at every start index. *)
Fixpoint test_literal (pat s : string) : bool :=
  match_here pat s
  || match s with
     | EmptyString => false
     | String _ s' => test_literal pat s'
     end.

(** [new RegExp(pattern, 'i')], as the function [regex.test]. *)
Definition RegExp_i (pattern : string) : completion (string → bool) :=
  if literal_pattern pattern then Normal (test_literal pattern)
  else host_RegExp pattern.

(** [texts.join(sep)]. *)
Definition join (sep : string) (texts : list string) : string :=
  String.concat sep texts.

(** ** The document

    Markup is what the server renders and what [.html()] parses; a node of
    the live document carries, besides its markup, what the script and its
    widgets attach to it. *)

Record markup : Type := {
  tag : string;               (* lower case, as selectors compare it *)
  attr_id : option string;    (* the [id] attribute, when present *)
  classes : list string;
  value : string;             (* the value of a form control *)
  displayed : bool            (* [false]: hidden by [display: none] *)
}.

Inductive html : Type :=
  | HText (s : string)
  | HElem (m : markup) (cs : list html).

(** The one function the script binds to [keyup]: the closure of
    [initiateSearch]. *)
Inductive handler : Type :=
  | SearchFilter.

Record popover_options : Type := {
  po_html : bool;
  po_trigger : string
}.

Record element : Type := {
  mk : markup;
  keyup : list handler;               (* bound keyup handlers, oldest first *)
  popover : list popover_options;     (* popover bindings, oldest first *)
  modal_shown : bool                  (* an open modal dialog *)
}.

Inductive node : Type :=
  | Text (s : string)
  | Elem (e : element) (cs : list node).

(** Parsing markup gives elements with nothing attached; reading the
    markup back forgets what is attached. *)
Definition fresh (m : markup) : element :=
  {| mk := m; keyup := []; popover := []; modal_shown := false |}.

Fixpoint parse (h : html) : node :=
  match h with
  | HText s => Text s
  | HElem m cs => Elem (fresh m) (parse <$> cs)
  end.

Fixpoint serialize (n : node) : html :=
  match n with
  | Text s => HText s
  | Elem e cs => HElem (mk e) (serialize <$> cs)
  end.

(** The element's [innerHTML]. *)
Definition innerHTML (n : node) : list html :=
  match n with
  | Text _ => []
  | Elem _ cs => serialize <$> cs
  end.

Definition set_displayed (b : bool) (e : element) : element :=
  {| mk := {| tag := tag (mk e); attr_id := attr_id (mk e);
              classes := classes (mk e); value := value (mk e);
              displayed := b |};
     keyup := keyup e; popover := popover e; modal_shown := modal_shown e |}.

Definition set_keyup (hs : list handler) (e : element) : element :=
  {| mk := mk e; keyup := hs; popover := popover e;
     modal_shown := modal_shown e |}.

Definition set_popover (ps : list popover_options) (e : element) : element :=
  {| mk := mk e; keyup := keyup e; popover := ps;
     modal_shown := modal_shown e |}.

Definition set_modal_shown (b : bool) (e : element) : element :=
  {| mk := mk e; keyup := keyup e; popover := popover e; modal_shown := b |}.

(** *** Paths

    An element reference ([this], [evt.target], a member of a jQuery set)
    is the path from the root: the child indices to follow. *)
Definition path : Type := list nat.

Fixpoint node_at (p : path) (n : node) : option node :=
  match p with
  | [] => Some n
  | i :: q =>
      match n with
      | Text _ => None
      | Elem _ cs => cs !! i ≫= node_at q
      end
  end.

Definition element_at (p : path) (n : node) : option element :=
  match node_at p n with
  | Some (Elem e _) => Some e
  | _ => None
  end.

Fixpoint alter_at (f : node → node) (p : path) (n : node) : node :=
  match p with
  | [] => f n
  | i :: q =>
      match n with
      | Text s => Text s
      | Elem e cs => Elem e (alter (alter_at f q) i cs)
      end
  end.

(** The text of a node: that of its text descendants, in document order. *)
Fixpoint textContent (n : node) : string :=
  match n with
  | Text s => s
  | Elem _ cs => foldr (λ c acc, textContent c +:+ acc) EmptyString cs
  end.

(** [:visible]: the element takes up space, which it does when neither it
    nor an ancestor is hidden. *)
Fixpoint visible (p : path) (n : node) {struct p} : bool :=
  match n with
  | Text _ => false
  | Elem e cs =>
      displayed (mk e)
      && match p with
         | [] => true
         | i :: q =>
             match cs !! i with
             | Some c => visible q c
             | None => false
             end
         end
  end.

(** *** Selectors *)

Inductive selector : Type :=
  | ByClass (c : string)     (* [.c] *)
  | ById (i : string)        (* [#i] *)
  | ByTag (t : string).      (* [t] *)

Definition has_class (c : string) (e : element) : bool :=
  existsb (String.eqb c) (classes (mk e)).

Definition matches (sel : selector) (e : element) : bool :=
  match sel with
  | ByClass c => has_class c e
  | ById i =>
      match attr_id (mk e) with
      | Some j => String.eqb j i
      | None => false
      end
  | ByTag t => String.eqb (tag (mk e)) t
  end.

Section Indexed.
Variable below : node → list path.

(** The paths [below] finds under each child, behind the child's index. *)
Fixpoint indexed (i : nat) (cs : list node) : list path :=
  match cs with
  | [] => []
  | c :: cs' => ((i ::.) <$> below c) ++ indexed (S i) cs'
  end.
End Indexed.

(** The elements a selector matches in the tree under [n], [n] included,
    in document order. *)
Fixpoint select (sel : selector) (n : node) : list path :=
  match n with
  | Text _ => []
  | Elem e cs =>
      (if matches sel e then [[]] else []) ++ indexed (select sel) 0 cs
  end.

(** The matches among the proper descendants of [n]. *)
Definition select_below (sel : selector) (n : node) : list path :=
  match n with
  | Text _ => []
  | Elem _ cs => indexed (select sel) 0 cs
  end.

(** The nearest match on the way from the element at [p] up to the root,
    the element itself included. *)
Fixpoint nearest (sel : selector) (p : path) (n : node) {struct p}
  : option path :=
  match n with
  | Text _ => None
  | Elem e cs =>
      let here := if matches sel e then Some [] else None in
      match p with
      | [] => here
      | i :: q =>
          match cs !! i with
          | Some c =>
              match nearest sel q c with
              | Some r => Some (i :: r)
              | None => here
              end
          | None => here
          end
      end
  end.

(** ** jQuery

    A jQuery set is the list of the elements it holds, in document order.
    Readers take the set and the document; [jq_each] is the implicit
    iteration of the writers. *)
Definition jq : Type := list path.

(** [$(selector)]. *)
Definition jq_select (sel : selector) (doc : node) : jq := select sel doc.

(** [$('#' + name)] with a computed name: a name of word characters and
    hyphens takes jQuery's [getElementById] path, which gives the first
    element with that id; any other name is an expression for the
    selector engine, which is the host's. *)
Definition is_word_char (c : ascii) : bool :=
  let n := nat_of_ascii c in
  (Nat.leb 48 n && Nat.leb n 57) || (Nat.leb 65 n && Nat.leb n 90)
  || (Nat.leb 97 n && Nat.leb n 122) || Nat.eqb n 95 || Nat.eqb n 45.

Definition plain_id (name : string) : bool := all_chars is_word_char name.

Definition getElementById (name : string) (doc : node) : option path :=
  head (select (ById name) doc).

Variable host_select : string → node → completion (list path).

Definition jq_id (name : string) (doc : node) : completion jq :=
  if plain_id name then Normal (option_list (getElementById name doc))
  else host_select ("#" +:+ name) doc.

(** [.val()]: the value of the first element, [undefined] on an empty
    set. *)
Definition jq_val (q : jq) (doc : node) : jsval :=
  match q with
  | [] => JUndefined
  | p :: _ =>
      match element_at p doc with
      | Some e => JString (value (mk e))
      | None => JUndefined
      end
  end.

(** [.attr('id')]: the attribute of the first element, [undefined] when
    the set is empty or the attribute is missing. *)
Definition jq_attr_id (q : jq) (doc : node) : jsval :=
  match q with
  | [] => JUndefined
  | p :: _ =>
      match element_at p doc with
      | Some e =>
          match attr_id (mk e) with
          | Some i => JString i
          | None => JUndefined
          end
      | None => JUndefined
      end
  end.

(** [.is(':visible')]: some element of the set is visible. *)
Definition jq_is_visible (q : jq) (doc : node) : bool :=
  existsb (λ p, visible p doc) q.

(** [.text()]: the texts of the elements of the set, concatenated. *)
Definition jq_text (q : jq) (doc : node) : string :=
  foldr (λ p acc, from_option textContent EmptyString (node_at p doc) +:+ acc)
        EmptyString q.

(** [.find(selector)]: the matching proper descendants. *)
Definition jq_find (sel : selector) (q : jq) (doc : node) : jq :=
  q ≫= λ p, from_option (λ n, (p ++.) <$> select_below sel n) []
                        (node_at p doc).

(** [.closest(selector)]. *)
Definition jq_closest (sel : selector) (q : jq) (doc : node) : jq :=
  q ≫= λ p, from_option (λ _, option_list (nearest sel p doc)) []
                        (node_at p doc).

(** A writer applied to a set built from a selector: [f] rewrites each
    matching element, given the element and its children.  The writers of
    the script touch only the element itself and read only its subtree, so
    every element is rewritten from the document as it was. *)
Fixpoint jq_each (sel : selector) (f : element → list node → element)
    (n : node) : node :=
  match n with
  | Text s => Text s
  | Elem e cs =>
      Elem (if matches sel e then f e cs else e) (jq_each sel f <$> cs)
  end.

(** [.show()] and [.hide()]. *)
Definition show (e : element) : element := set_displayed true e.
Definition hide (e : element) : element := set_displayed false e.

(** [.keyup(h)] adds a handler to those already bound. *)
Definition bind_keyup (h : handler) (e : element) (_ : list node) : element :=
  set_keyup (keyup e ++ [h]) e.

(** [.popover('destroy')] and [.popover(options)]. *)
Definition popover_destroy (e : element) (_ : list node) : element :=
  set_popover [] e.

Definition popover_attach (o : popover_options) (e : element)
    (_ : list node) : element :=
  set_popover (popover e ++ [o]) e.

(** [.modal('hide')]: the plugin is Bootstrap's and not part of the
    source.  The model records that the dialog is dismissed, not the
    classes and styles the plugin changes for it. *)
Definition modal_hide (e : element) (_ : list node) : element :=
  set_modal_shown false e.

Definition set_children (cs : list node) (n : node) : node :=
  match n with
  | Text s => Text s
  | Elem e _ => Elem e cs
  end.

(** [.html(data)]: the children of each element of the set are replaced
    by the parsed markup. *)
Definition jq_html (data : list html) (q : jq) (doc : node) : node :=
  foldl (λ d p, alter_at (set_children (parse <$> data)) p d) doc q.

(** The child nodes [textContent = s] leaves. *)
Definition text_nodes (s : string) : list node :=
  if String.eqb s EmptyString then [] else [Text s].

(** [.text(v)]: with [undefined] the call is the reader and writes
    nothing; otherwise the children of each element of the set are
    replaced by the text. *)
Definition jq_set_text (v : jsval) (q : jq) (doc : node) : node :=
  match v with
  | JUndefined => doc
  | JNull => foldl (λ d p, alter_at (set_children []) p d) doc q
  | JString s => foldl (λ d p, alter_at (set_children (text_nodes s)) p d) doc q
  end.

(** ** The page

    What the script reads and writes: its own flag, the document, the
    cookie string, and what it hands to its collaborators (notifications
    to [addNotification], requests to [jQuery.ajax], timers to
    [setTimeout]). *)

Record notification : Type := {
  type : string;
  text : string
}.

(** The functions the script passes as completion callbacks, with what
    each closure captures. *)
Inductive callback : Type :=
  | RefreshSuccess                       (* [success] of [refresh] *)
  | NewTimeDone (id due : jsval).        (* [.done] of [newTime] *)

Global Instance callback_eq_dec : EqDecision callback.
Proof. solve_decision. Defined.

Record request : Type := {
  method : string;
  url : string;
  data : list (string * jsval);
  success : callback;
  requestHeaders : list (string * jsval)
}.

Global Instance request_eq_dec : EqDecision request.
Proof. solve_decision. Defined.

(** The function a timer will call. *)
Inductive task : Type :=
  | ScheduleRefresh.

Record timer : Type := {
  timer_task : task;
  timer_delay : nat        (* milliseconds *)
}.

Record state : Type := {
  isPageBeingRefreshed : bool;
  document : node;
  cookie : string;                      (* [document.cookie] *)
  notifications : list notification;    (* shown so far, oldest first *)
  requests : list request;              (* issued so far, oldest first *)
  timers : list timer;                  (* pending, in the order they fire *)
  initiations : nat                     (* calls of [initiate] so far *)
}.

Definition set_isPageBeingRefreshed (b : bool) (s : state) : state :=
  {| isPageBeingRefreshed := b; document := document s; cookie := cookie s;
     notifications := notifications s; requests := requests s;
     timers := timers s; initiations := initiations s |}.

Definition set_document (d : node) (s : state) : state :=
  {| isPageBeingRefreshed := isPageBeingRefreshed s; document := d;
     cookie := cookie s; notifications := notifications s;
     requests := requests s; timers := timers s;
     initiations := initiations s |}.

Definition set_notifications (l : list notification) (s : state) : state :=
  {| isPageBeingRefreshed := isPageBeingRefreshed s; document := document s;
     cookie := cookie s; notifications := l; requests := requests s;
     timers := timers s; initiations := initiations s |}.

Definition set_requests (l : list request) (s : state) : state :=
  {| isPageBeingRefreshed := isPageBeingRefreshed s; document := document s;
     cookie := cookie s; notifications := notifications s; requests := l;
     timers := timers s; initiations := initiations s |}.

Definition set_timers (l : list timer) (s : state) : state :=
  {| isPageBeingRefreshed := isPageBeingRefreshed s; document := document s;
     cookie := cookie s; notifications := notifications s;
     requests := requests s; timers := l; initiations := initiations s |}.

Definition set_initiations (k : nat) (s : state) : state :=
  {| isPageBeingRefreshed := isPageBeingRefreshed s; document := document s;
     cookie := cookie s; notifications := notifications s;
     requests := requests s; timers := timers s; initiations := k |}.

(** The collaborators, at their interface. *)

(** [addNotification(n)] shows one notification. *)
Definition addNotification (n : notification) (s : state) : state :=
  set_notifications (notifications s ++ [n]) s.

(** [setTimeout(f, delay)] registers one timer. *)
Definition setTimeout (f : task) (delay : nat) (s : state) : state :=
  set_timers (timers s ++ [{| timer_task := f; timer_delay := delay |}]) s.

(** [xhr.setRequestHeader(name, v)]. *)
Definition setRequestHeader (name : string) (v : jsval) (xhr : request)
  : request :=
  {| method := method xhr; url := url xhr; data := data xhr;
     success := success xhr;
     requestHeaders := requestHeaders xhr ++ [(name, v)] |}.

(** The value of a request header, if the header was set. *)
Fixpoint header (name : string) (hs : list (string * jsval)) : option jsval :=
  match hs with
  | [] => None
  | (n, v) :: hs' => if String.eqb n name then Some v else header name hs'
  end.

(** ** The script *)

(** What a function of the script does to the page: it returns, or it
    throws; either way with the state it leaves. *)
Inductive outcome : Type :=
  | Returns (s : state)
  | Throws (e : exn) (s : state).

Definition state_of (o : outcome) : state :=
  match o with
  | Returns s => s
  | Throws _ s => s
  end.

(** [decodeURIComponent]: a string without [%] holds no escape and is its
    own decoding; on any other string the host decodes the escapes or
    throws [URIError]. *)
Variable host_decodeURIComponent : string → completion string.

Definition has_escape (v : string) : bool :=
  negb (all_chars (λ c, negb (Ascii.eqb c "%")) v).

Definition decodeURIComponent (v : string) : completion string :=
  if has_escape v then host_decodeURIComponent v else Normal v.

(** [window.onbeforeunload]. *)
Definition onbeforeunload (s : state) : state :=
  set_isPageBeingRefreshed true s.

(** The [for] loop of [getCookie]: the first cookie that starts with
    [name=] gives the value and ends the loop. *)
Fixpoint getCookie_loop (name : string) (cookies : list string)
  : completion jsval :=
  match cookies with
  | [] => Normal JNull
  | c :: rest =>
      let cookie := trim c in
      if String.eqb (substring 0 (String.length name + 1) cookie)
                    (name +:+ "=")
      then match decodeURIComponent
                   (substring_from (String.length name + 1) cookie) with
           | Normal v => Normal (JString v)
           | Throw e => Throw e
           end
      else getCookie_loop name rest
  end.

Definition getCookie (document_cookie name : string) : completion jsval :=
  if negb (String.eqb document_cookie "")
  then getCookie_loop name (split ";" document_cookie)
  else Normal JNull.

(** [/^http:.*/.test(u)]: [.*] also matches nothing, so the test is for
    the prefix. *)
Definition test_http (u : string) : bool := String.prefix "http:" u.
Definition test_https (u : string) : bool := String.prefix "https:" u.

Definition beforeSend (document_cookie : string) (xhr : request)
  : completion request :=
  if negb (test_http (url xhr) || test_https (url xhr))
  then match getCookie document_cookie "csrftoken" with
       | Normal v => Normal (setRequestHeader "X-CSRFToken" v xhr)
       | Throw e => Throw e
       end
  else Normal xhr.

Definition error (status : nat) (s : state) : state :=
  if negb (isPageBeingRefreshed s) then
    let message :=
      if Nat.eqb status 404 then "404 - Page not found"
      else "Ooops, something went wrong" in
    let s := addNotification {| type := "danger"; text := message |} s in
    set_document (jq_each (ByClass "modal") modal_hide (document s)) s
  else s.

(** [jQuery.ajax(settings)] under the [ajaxSetup] above: [beforeSend]
    runs on the request, which is then issued.  jQuery does not catch
    what [beforeSend] throws: the exception leaves [jQuery.ajax] before
    anything is sent. *)
Definition ajax (settings : request) (s : state) : outcome :=
  match beforeSend (cookie s) settings with
  | Normal xhr => Returns (set_requests (requests s ++ [xhr]) s)
  | Throw e => Throws e s
  end.

(** [$.ajax({url, success})]: the method defaults to GET. *)
Definition ajax_get (u : string) (k : callback) : state → outcome :=
  ajax {| method := "GET"; url := u; data := []; success := k;
          requestHeaders := [] |}.

(** [$.post(url, data).done(k)]. *)
Definition post (u : string) (d : list (string * jsval)) (k : callback)
  : state → outcome :=
  ajax {| method := "POST"; url := u; data := d; success := k;
          requestHeaders := [] |}.

Definition newTime (target : path) (s : state) : outcome :=
  let doc := document s in
  let due := jq_val (jq_find (ByTag "input") [target] doc) doc in
  let id := jq_attr_id (jq_closest (ByTag "tr") [target] doc) doc in
  post ("/mails/update/" +:+ to_string id +:+ "/") [("due", due)]
       (NewTimeDone id due) s.

(** The [.done] callback of [newTime]. *)
Definition newTime_done (id due : jsval) (s : state) : outcome :=
  match jq_id ("due-" +:+ to_string id) (document s) with
  | Normal duefield =>
      Returns (set_document (jq_set_text due duefield (document s)) s)
  | Throw e => Throws e s
  end.

(** The callback [$('.item').each] runs on a row. *)
Definition filter_row (regex : string → bool) (e : element)
    (cs : list node) : element :=
  let this := Elem e cs in
  let subject := jq_text (jq_find (ByClass "subject") [[]] this) this in
  let sent := jq_text (jq_find (ByClass "sent") [[]] this) this in
  let due := jq_text (jq_find (ByClass "due") [[]] this) this in
  let texts := [subject; sent; due] in
  if regex (join " " texts) then show e else hide e.

(** The keyup handler of [initiateSearch], on the element [this]. *)
Definition search_keyup (this : path) (doc : node) : completion node :=
  let key := jq_val [this] doc in
  match RegExp_i (to_string key) with
  | Normal regex => Normal (jq_each (ByClass "item") (filter_row regex) doc)
  | Throw e => Throw e
  end.

Definition initiateSearch (s : state) : state :=
  set_document
    (jq_each (ByClass "search") (bind_keyup SearchFilter) (document s)) s.

Definition initiate (s : state) : state :=
  let s := set_initiations (S (initiations s)) s in
  let s := set_document
             (jq_each (ByClass "add-popover") popover_destroy (document s))
             s in
  let s := set_document
             (jq_each (ByClass "add-popover")
                (popover_attach {| po_html := true; po_trigger := "hover" |})
                (document s)) s in
  initiateSearch s.

Definition refresh (s : state) : outcome :=
  let doc := document s in
  if jq_is_visible
       (jq_select (ByClass "bootstrap-datetimepicker-widget") doc) doc
     || truthy (jq_val (jq_select (ByClass "search") doc) doc)
     || jq_is_visible (jq_select (ByClass "popover") doc) doc
  then Returns s
  else ajax_get "/mails/table/" RefreshSuccess s.

(** The [success] callback of [refresh]. *)
Definition refresh_success (data : list html) (s : state) : state :=
  let doc := document s in
  let s := set_document
             (jq_html data (option_list (getElementById "list" doc)) doc)
             s in
  initiate s.

(** When [refresh] throws, [setTimeout] is not reached. *)
Definition scheduleRefresh (s : state) : outcome :=
  match refresh s with
  | Returns s => Returns (setTimeout ScheduleRefresh (10 * 1000) s)
  | Throws e s => Throws e s
  end.

(** The body of the script, on the page as loaded. *)
Definition main (doc : node) (document_cookie : string) : outcome :=
  let s := {| isPageBeingRefreshed := false; document := doc;
              cookie := document_cookie; notifications := [];
              requests := []; timers := []; initiations := 0 |} in
  let s := initiate s in
  scheduleRefresh s.

(** *** What the browser does with the registrations *)

(** A request completes successfully with [payload]: its completion
    callback runs. *)
Definition respond_success (r : request) (payload : list html) (s : state)
  : outcome :=
  match success r with
  | RefreshSuccess => Returns (refresh_success payload s)
  | NewTimeDone id due => newTime_done id due s
  end.

(** A request fails with [status]: the [error] of [ajaxSetup] runs, the
    completion callback does not. *)
Definition respond_error (r : request) (status : nat) (s : state)
  : state :=
  error status s.

Definition run_handler (h : handler) (this : path) (doc : node)
  : completion node :=
  match h with
  | SearchFilter => search_keyup this doc
  end.

(** The handlers bound to the element [this] run in the order they were
    bound; jQuery does not catch what a handler throws, so the handlers
    after it do not run.  The answer is the document they leave. *)
Fixpoint run_handlers (hs : list handler) (this : path) (doc : node)
  : node :=
  match hs with
  | [] => doc
  | h :: hs' =>
      match run_handler h this doc with
      | Normal doc' => run_handlers hs' this doc'
      | Throw _ => doc
      end
  end.

(** The elements an event in the element at [p] reaches: the element
    itself, then its ancestors, up to the root. *)
Fixpoint propagation (p : path) : list path :=
  match p with
  | [] => [[]]
  | i :: q => ((i ::.) <$> propagation q) ++ [[]]
  end.

(** The browser calls the listener of every element the event reaches,
    whether or not an earlier one threw. *)
Fixpoint dispatch (reached : list path) (doc : node) : node :=
  match reached with
  | [] => doc
  | this :: rest =>
      match element_at this doc with
      | Some e => dispatch rest (run_handlers (keyup e) this doc)
      | None => dispatch rest doc
      end
  end.

(** A key is released in the element at [p]. *)
Definition keyup_event (p : path) (s : state) : state :=
  match element_at p (document s) with
  | Some _ => set_document (dispatch (propagation p) (document s)) s
  | None => s
  end.

(** The first pending timer fires: it is consumed and its function
    runs. *)
Definition timer_fires (s : state) : outcome :=
  match timers s with
  | [] => Returns s
  | t :: rest =>
      match timer_task t with
      | ScheduleRefresh => scheduleRefresh (set_timers rest s)
      end
  end.

(** What happens on the page.  The script registers [scheduleRefresh] with
    [setTimeout], its completion callbacks with [jQuery.ajax] and the
    keyup handlers with [.keyup]; [onbeforeunload] is the handler of the
    page being left.  [newTime] is bound to nothing: no event runs it. *)
Inductive event : Type :=
  | Timeout                                      (* the first timer fires *)
  | Succeeded (r : request) (payload : list html)
  | Failed (r : request) (status : nat)
  | KeyUp (p : path)
  | BeforeUnload.

(** An event that cannot occur in the state (a timer when none is
    pending, the completion of a request that was not issued, a key in an
    element that is not there) leaves it as it is.  An exception no caller
    catches ends the handler; the page goes on with the state it left. *)
Definition step (ev : event) (s : state) : state :=
  match ev with
  | Timeout => state_of (timer_fires s)
  | Succeeded r payload =>
      if decide (r ∈ requests s) then state_of (respond_success r payload s)
      else s
  | Failed r status =>
      if decide (r ∈ requests s) then respond_error r status s else s
  | KeyUp p => keyup_event p s
  | BeforeUnload => onbeforeunload s
  end.

Fixpoint run (evs : list event) (s : state) : state :=
  match evs with
  | [] => s
  | ev :: evs' => run evs' (step ev s)
  end.
(** ** The vocabulary of the specification *)

(** *** Cookies

    The cookies the page can see, oldest first, and the string
    [document.cookie] shows for them: [name=value] pairs joined by a
    semicolon and a space. *)
Definition cookie_pair (c : string * string) : string :=
  c.1 +:+ "=" +:+ c.2.

Definition document_cookie (jar : list (string * string)) : string :=
  String.concat "; " (cookie_pair <$> jar).

(** The value of the first cookie called [name]. *)
Fixpoint cookie_value (name : string) (jar : list (string * string))
  : option string :=
  match jar with
  | [] => None
  | (n, v) :: jar' =>
      if String.eqb n name then Some v else cookie_value name jar'
  end.

(** What reading the value [v] of a cookie answers: [null] when there is
    no cookie, else the decoded value, or the exception of the decoder. *)
Definition decoded (v : option string) : completion jsval :=
  match v with
  | None => Normal JNull
  | Some v =>
      match decodeURIComponent v with
      | Normal d => Normal (JString d)
      | Throw e => Throw e
      end
  end.

(** Names and values hold neither white space nor a semicolon, names no
    equals sign either. *)
Definition value_char (c : ascii) : bool :=
  negb (is_space c) && negb (Ascii.eqb c ";").

Definition name_char (c : ascii) : bool :=
  value_char c && negb (Ascii.eqb c "=").

Definition well_formed_cookie (c : string * string) : bool :=
  all_chars name_char c.1 && all_chars value_char c.2.

Definition well_formed_jar (jar : list (string * string)) : bool :=
  forallb well_formed_cookie jar.

(** *** URLs

    A URL is absolute when it starts with a scheme: a letter, then
    letters, digits, [+], [-] or [.], then a colon. *)
Definition is_alpha (c : ascii) : bool :=
  let n := nat_of_ascii c in
  (Nat.leb 65 n && Nat.leb n 90) || (Nat.leb 97 n && Nat.leb n 122).

Definition is_scheme_char (c : ascii) : bool :=
  let n := nat_of_ascii c in
  is_alpha c || (Nat.leb 48 n && Nat.leb n 57)
  || Nat.eqb n 43 || Nat.eqb n 45 || Nat.eqb n 46.

Fixpoint scheme_rest (u : string) : bool :=
  match u with
  | EmptyString => false
  | String c u' =>
      Ascii.eqb c ":" || (is_scheme_char c && scheme_rest u')
  end.

Definition is_absolute (u : string) : bool :=
  match u with
  | EmptyString => false
  | String c u' => is_alpha c && scheme_rest u'
  end.

(** A URL starts with [pre]. *)
Definition starts_with (pre u : string) : Prop := ∃ rest, u = pre +:+ rest.

(** *** Search

    [t] contains [q] up to case: a stretch of [t] has the letters of [q].
    Case is that of the letters below 256: A-Z and the accented capitals
    0xC0-0xDE (but the multiplication sign 0xD7) have a lower-case form 32
    further up. *)
Definition lower_case (c : ascii) : ascii :=
  let n := nat_of_ascii c in
  if bool_decide (65 ≤ n ≤ 90 ∨ (192 ≤ n ≤ 222 ∧ n ≠ 215))
  then ascii_of_nat (n + 32)
  else c.

Fixpoint fold_case (s : string) : string :=
  match s with
  | EmptyString => EmptyString
  | String c s' => String (lower_case c) (fold_case s')
  end.

Definition contains_ignoring_case (q t : string) : Prop :=
  ∃ a m b, t = a +:+ m +:+ b ∧ fold_case m = fold_case q.

(** The nodes below [n], in document order. *)
Fixpoint descendants (n : node) : list node :=
  match n with
  | Text _ => []
  | Elem _ cs => flat_map (λ c, c :: descendants c) cs
  end.

Definition is_match (sel : selector) (n : node) : bool :=
  match n with
  | Text _ => false
  | Elem e _ => matches sel e
  end.

Definition texts (ns : list node) : string :=
  foldr (λ n acc, textContent n +:+ acc) EmptyString ns.

(** The display text a row shows under the class [c]. *)
Definition display_text (c : string) (row : node) : string :=
  texts (List.filter (is_match (ByClass c)) (descendants row)).

(** Subject, sent and due texts of a row, joined by single spaces. *)
Definition row_text (row : node) : string :=
  display_text "subject" row +:+ " " +:+ display_text "sent" row
  +:+ " " +:+ display_text "due" row.

(** The filter a keystroke applies for the pattern [regex]. *)
Definition filtered (regex : string → bool) (doc : node) : node :=
  jq_each (ByClass "item") (filter_row regex) doc.

(** *** Document order

    [p] is [q] or comes before it: an element comes before what it holds
    and before what follows it. *)
Fixpoint precedes (p q : path) : Prop :=
  match p, q with
  | [], _ => True
  | _ :: _, [] => False
  | i :: p', j :: q' => i < j ∨ (i = j ∧ precedes p' q')
  end.

(** The first element of the document, in document order, that is
    [P]. *)
Definition first_element (P : element → Prop) (doc : node) (p : path)
  : Prop :=
  (∃ e, element_at p doc = Some e ∧ P e)
  ∧ ∀ q e, element_at q doc = Some e → P e → precedes p q.

Definition of_class (c : string) (e : element) : Prop := c ∈ classes (mk e).

Definition with_id (name : string) (e : element) : Prop :=
  attr_id (mk e) = Some name.

(** *** Refresh

    An element is shown when neither it nor an element around it is
    hidden.  The three conditions that hold a refresh back. *)
Definition shown (p : path) (doc : node) : Prop :=
  ∀ q a, q `prefix_of` p → element_at q doc = Some a →
         displayed (mk a) = true.

Definition overlay_visible (c : string) (doc : node) : Prop :=
  ∃ p e, element_at p doc = Some e ∧ of_class c e ∧ shown p doc.

Definition datepicker_visible : node → Prop :=
  overlay_visible "bootstrap-datetimepicker-widget".

Definition popover_visible : node → Prop := overlay_visible "popover".

(** The search field is the first element of class [search]. *)
Definition search_field (doc : node) (p : path) : Prop :=
  first_element (of_class "search") doc p.

Definition search_nonempty (doc : node) : Prop :=
  ∃ p e, search_field doc p ∧ element_at p doc = Some e
         ∧ value (mk e) ≠ EmptyString.

(** Any of the three conditions holds. *)
Definition held_back (doc : node) : Prop :=
  datepicker_visible doc ∨ search_nonempty doc ∨ popover_visible doc.

(** The request for the table fragment. *)
Definition table_request (headers : list (string * jsval)) : request :=
  {| method := "GET"; url := "/mails/table/"; data := [];
     success := RefreshSuccess; requestHeaders := headers |}.

(** The timer a tick leaves for the next one. *)
Definition next_tick : timer :=
  {| timer_task := ScheduleRefresh; timer_delay := 10 * 1000 |}.

(** *** Writes

    What a node is by itself, its children apart. *)
Definition label (n : node) : string + element :=
  match n with
  | Text s => inl s
  | Elem e _ => inr e
  end.

(** What a writer of a jQuery set leaves in place of an element. *)
Definition rewritten (sel : selector) (f : element → list node → element)
    (e : element) (cs : list node) : element :=
  if matches sel e then f e cs else e.

(** The options [initiate] attaches popovers with. *)
Definition hover_popover : popover_options :=
  {| po_html := true; po_trigger := "hover" |}.

(** The element [initiate] leaves in place of [e]. *)
Definition initiated (e : element) : element :=
  {| mk := mk e;
     keyup := if has_class "search" e then keyup e ++ [SearchFilter]
              else keyup e;
     popover := if has_class "add-popover" e then [hover_popover]
                else popover e;
     modal_shown := modal_shown e |}.

(** *** Bindings

    Every element of the document is [P]. *)
Definition every_element (P : element → Prop) (doc : node) : Prop :=
  ∀ q e, element_at q doc = Some e → P e.

(** Nothing is bound to the element: it is as the parser made it. *)
Definition unbound (e : element) : Prop := keyup e = [] ∧ popover e = [].

(** The bindings follow the classes: keyup listeners on the [.search]
    elements and on no other, the hover popover on the [.add-popover]
    elements and none on any other. *)
Definition bound_as_classed (e : element) : Prop :=
  (of_class "search" e → keyup e ≠ [])
  ∧ (¬ of_class "search" e → keyup e = [])
  ∧ (of_class "add-popover" e → popover e = [hover_popover])
  ∧ (¬ of_class "add-popover" e → popover e = []).

Definition well_bound : node → Prop := every_element bound_as_classed.

(** The request that stores a due date. *)
Definition update_request (id due : jsval) (headers : list (string * jsval))
  : request :=
  {| method := "POST"; url := "/mails/update/" +:+ to_string id +:+ "/";
     data := [("due", due)]; success := NewTimeDone id due;
     requestHeaders := headers |}.

(** The row identifier and the new value [newTime] reads off the page. *)
Definition row_id (target : path) (doc : node) : jsval :=
  jq_attr_id (jq_closest (ByTag "tr") [target] doc) doc.

Definition new_due (target : path) (doc : node) : jsval :=
  jq_val (jq_find (ByTag "input") [target] doc) doc.

(** *** Failures *)

(** What [error] tells the user. *)
Definition failure_notification (status : nat) : notification :=
  {| type := "danger";
     text := if decide (status = 404) then "404 - Page not found"
             else "Ooops, something went wrong" |}.

(** ** A page to run the script on *)

Definition tagged (t : string) (i : option string) (cl : list string)
    (v : string) : markup :=
  {| tag := t; attr_id := i; classes := cl; value := v; displayed := true |}.

Definition sample_row (id subject sent due : string) : html :=
  HElem (tagged "tr" (Some id) ["item"] "")
    [ HElem (tagged "td" None ["subject"] "") [HText subject];
      HElem (tagged "td" None ["sent"] "") [HText sent];
      HElem (tagged "td" (Some ("due-" +:+ id)) ["due"] "") [HText due];
      HElem (tagged "td" None ["datetimepicker"] "")
        [HElem (tagged "input" None [] "2024-01-01") []];
      HElem (tagged "a" None ["add-popover"] "") [HText "?"] ].

Definition sample_table : list html :=
  [ HElem (tagged "table" None [] "")
      [ sample_row "42" "Lunch at Foo's" "2023-12-24" "2023-12-31";
        sample_row "43" "Invoice" "2023-12-27" "2024-02-01" ] ].

(** The page, with [query] typed into the search field. *)
Definition sample_markup (query : string) : html :=
  HElem (tagged "body" None [] "")
    [ HElem (tagged "input" None ["search"] query) [];
      HElem (tagged "div" (Some "list") [] "") sample_table;
      HElem (tagged "div" None ["modal"] "") [] ].

Definition sample_page (query : string) : node :=
  parse (sample_markup query).

(** A page whose row has an identifier with a dot. *)
Definition dotted_page : node :=
  parse (HElem (tagged "body" None [] "")
           [ HElem (tagged "tr" (Some "a.b") ["item"] "")
               [ HElem (tagged "td" (Some "due-a.b") ["due"] "")
                   [HText "old"];
                 HElem (tagged "td" None ["datetimepicker"] "")
                   [HElem (tagged "input" None [] "new") []] ];
             HElem (tagged "p" (Some "due-a") ["b"] "") [HText "note"] ]).

(** *** A host to run the samples on

    [decodeURIComponent] on escapes of the code units below 80 hex; an
    escape that is cut short or has no hexadecimal digits is malformed.
    The escapes from 80 hex on, which the browser reads as UTF-8
    sequences, do not occur in the samples. *)
Definition hex_digit (c : ascii) : option nat :=
  let n := nat_of_ascii c in
  if (Nat.leb 48 n && Nat.leb n 57) then Some (n - 48)
  else if (Nat.leb 65 n && Nat.leb n 70) then Some (n - 55)
  else if (Nat.leb 97 n && Nat.leb n 102) then Some (n - 87)
  else None.

Fixpoint sample_decode (v : string) : completion string :=
  match v with
  | EmptyString => Normal EmptyString
  | String c rest =>
      if Ascii.eqb c "%" then
        match rest with
        | String a (String b rest') =>
            match hex_digit a, hex_digit b with
            | Some h, Some l =>
                if Nat.ltb h 8 then
                  match sample_decode rest' with
                  | Normal d => Normal (String (ascii_of_nat (16 * h + l)) d)
                  | Throw e => Throw e
                  end
                else Throw URIError
            | _, _ => Throw URIError
            end
        | _ => Throw URIError
        end
      else
        match sample_decode rest with
        | Normal d => Normal (String c d)
        | Throw e => Throw e
        end
  end.

(** Of the patterns with syntax characters the samples type only [(],
    which is malformed. *)
Definition sample_RegExp (pattern : string) : completion (string → bool) :=
  Throw SyntaxError.

(** Of the expressions that are not [#] and a plain name the samples use
    only [#id.class], which selects the elements of that id and class. *)
Definition sample_select (expr : string) (doc : node)
  : completion (list path) :=
  match expr with
  | String "#" rest =>
      match split "." rest with
      | [i; c] =>
          if plain_id i && plain_id c
             && negb (String.eqb i "") && negb (String.eqb c "")
          then Normal (List.filter
                         (λ p, match element_at p doc with
                               | Some e => has_class c e
                               | None => false
                               end)
                         (select (ById i) doc))
          else Throw SelectorError
      | _ => Throw SelectorError
      end
  | _ => Throw SelectorError
  end.

Definition sample_state (query : string) : state :=
  {| isPageBeingRefreshed := false; document := sample_page query;
     cookie := "sessionid=abc; csrftoken=tok"; notifications := [];
     requests := []; timers := []; initiations := 0 |}.


Definition dotted_state : state :=
  {| isPageBeingRefreshed := false; document := dotted_page;
     cookie := "csrftoken=tok"; notifications := []; requests := [];
     timers := []; initiations := 0 |}.

(** The sample page with a [csrftoken] cookie that is a malformed
    escape. *)
Definition malformed_state : state :=
  {| isPageBeingRefreshed := false; document := sample_page "";
     cookie := "csrftoken=%"; notifications := []; requests := [];
     timers := [next_tick]; initiations := 1 |}.

(** ** Further vocabulary *)

(** A cookie as it may stand in the cookie string: the pair, with white
    space before and after. *)
Record padded_cookie : Type := {
  pad_before : string;
  the_cookie : string * string;
  pad_after : string
}.

Definition padded_pair (c : padded_cookie) : string :=
  pad_before c +:+ cookie_pair (the_cookie c) +:+ pad_after c.

Definition well_padded (c : padded_cookie) : bool :=
  all_chars is_space (pad_before c) && all_chars is_space (pad_after c)
  && well_formed_cookie (the_cookie c).

(** The cookie string for padded cookies: the pieces, joined by
    semicolons. *)
Definition cookie_string (cs : list padded_cookie) : string :=
  String.concat ";" (padded_pair <$> cs).

(** What a node is by its markup, children and bindings apart. *)
Definition markup_label (n : node) : string + markup :=
  match n with
  | Text s => inl s
  | Elem e _ => inr (mk e)
  end.

(** The statuses of the failures the user is told about: those of the
    requests that were issued, before the page is left. *)
Fixpoint reported (evs : list event) (s : state) : list nat :=
  match evs with
  | [] => []
  | ev :: evs' =>
      match ev with
      | Failed r status =>
          if bool_decide (r ∈ requests s)
          then status :: reported evs' (step ev s)
          else reported evs' (step ev s)
      | BeforeUnload => []
      | _ => reported evs' (step ev s)
      end
  end.

(** The number of table fragments that arrive: the successful responses
    to table requests that were issued. *)
Fixpoint table_responses (evs : list event) (s : state) : nat :=
  match evs with
  | [] => 0
  | ev :: evs' =>
      match ev with
      | Succeeded r _ =>
          match success r with
          | RefreshSuccess =>
              if bool_decide (r ∈ requests s)
              then S (table_responses evs' (step ev s))
              else table_responses evs' (step ev s)
          | NewTimeDone _ _ => table_responses evs' (step ev s)
          end
      | _ => table_responses evs' (step ev s)
      end
  end.

(** A page without a [#list] element, and the script's state on it. *)
Definition bare_page : node :=
  parse (HElem (tagged "body" None [] "")
           [ HElem (tagged "input" None ["search"] "") [] ]).

Definition bare_state : state :=
  {| isPageBeingRefreshed := false; document := bare_page;
     cookie := ""; notifications := []; requests := []; timers := [];
     initiations := 0 |}.
(** ** The document model: lemmas *)

(** Induction on nodes, with the hypothesis for every child. *)
Lemma node_ind_children (P : node → Prop) :
  (∀ s, P (Text s)) →
  (∀ e cs, Forall P cs → P (Elem e cs)) →
  ∀ n, P n.
Proof.
  intros HText HElem. fix IH 1. intros [s|e cs].
  - apply HText.
  - apply HElem. revert cs. fix IHcs 1. intros [|c cs].
    + constructor.
    + constructor; [apply IH | apply IHcs].
Qed.

Lemma matches_mk sel e e' : mk e = mk e' → matches sel e = matches sel e'.
Proof.
  intros Hmk. destruct sel; unfold matches, has_class; by rewrite Hmk.
Qed.

Lemma node_at_jq_each sel f p : ∀ n,
  node_at p (jq_each sel f n) = jq_each sel f <$> node_at p n.
Proof.
  induction p as [|i q IH]; intros n; [done|].
  destruct n as [s|e cs]; [done|]. cbn.
  rewrite list_lookup_fmap. destruct (cs !! i) as [c|]; cbn; [apply IH|done].
Qed.

Lemma element_at_jq_each sel f p n :
  element_at p (jq_each sel f n) =
  match node_at p n with
  | Some (Elem e cs) => Some (rewritten sel f e cs)
  | _ => None
  end.
Proof.
  unfold element_at. rewrite node_at_jq_each.
  by destruct (node_at p n) as [[s|e cs]|].
Qed.

Lemma serialize_jq_each sel f :
  (∀ e cs, mk (f e cs) = mk e) →
  ∀ n, serialize (jq_each sel f n) = serialize n.
Proof.
  intros Hmk. induction n as [s|e cs IH] using node_ind_children; [done|].
  cbn. f_equal.
  - by destruct (matches sel e).
  - rewrite <- list_fmap_compose. apply Forall_fmap_ext, IH.
Qed.

Lemma textContent_jq_each sel f :
  ∀ n, textContent (jq_each sel f n) = textContent n.
Proof.
  induction n as [s|e cs IH] using node_ind_children; [done|].
  cbn. induction IH as [|c cs' Hc _ IHcs]; [done|].
  cbn. by rewrite Hc, IHcs.
Qed.

Lemma indexed_fmap (F G : node → list path) (g : node → node) k cs :
  Forall (λ c, F (g c) = G c) cs →
  indexed F k (g <$> cs) = indexed G k cs.
Proof.
  intros H. revert k. induction H as [|c cs' Hc _ IH]; intros k; [done|].
  cbn. by rewrite Hc, IH.
Qed.

Lemma select_jq_each sel' sel f :
  (∀ e cs, matches sel' (f e cs) = matches sel' e) →
  ∀ n, select sel' (jq_each sel f n) = select sel' n.
Proof.
  intros Hm. induction n as [s|e cs IH] using node_ind_children; [done|].
  cbn. f_equal.
  - destruct (matches sel e); by rewrite ?Hm.
  - by apply indexed_fmap.
Qed.

Lemma select_jq_each_mk sel' sel f :
  (∀ e cs, mk (f e cs) = mk e) →
  ∀ n, select sel' (jq_each sel f n) = select sel' n.
Proof. intros Hmk. apply select_jq_each. intros. by apply matches_mk. Qed.

Lemma elem_of_indexed (F : node → list path) p cs : ∀ k,
  p ∈ indexed F k cs ↔
  ∃ j q c, p = (k + j) :: q ∧ cs !! j = Some c ∧ q ∈ F c.
Proof.
  induction cs as [|c cs IH]; intros k; cbn.
  - split; [by intros ?%elem_of_nil|]. by intros (j & q & c & _ & ? & _).
  - rewrite elem_of_app, IH, list_elem_of_fmap. split.
    + intros [(q & -> & Hq)|(j & q & c' & -> & Hj & Hq)].
      * exists 0, q, c. by rewrite Nat.add_0_r.
      * exists (S j), q, c'. split_and!; [f_equal; lia|done..].
    + intros (j & q & c' & -> & Hj & Hq). destruct j as [|j]; cbn in Hj.
      * left. exists q. rewrite Nat.add_0_r. by simplify_eq.
      * right. exists j, q, c'. split_and!; [f_equal; lia|done..].
Qed.

(** [select] finds exactly the elements that match. *)
Lemma elem_of_select sel p : ∀ n,
  p ∈ select sel n ↔ ∃ e, element_at p n = Some e ∧ matches sel e = true.
Proof.
  induction p as [|i q IH]; intros [s|e cs]; cbn.
  - split; [by intros ?%elem_of_nil|]. by intros (e & ? & _).
  - rewrite elem_of_app, elem_of_indexed. split.
    + intros [H|(j & q & c & ? & _)]; [|done].
      destruct (matches sel e) eqn:Hm; [|by apply elem_of_nil in H].
      by exists e.
    + intros (e' & [= <-] & ->). left. apply list_elem_of_here.
  - split; [by intros ?%elem_of_nil|]. by intros (e & ? & _).
  - rewrite elem_of_app, elem_of_indexed. unfold element_at. cbn. split.
    + intros [H|(j & q' & c & [= -> ->] & Hj & Hq)].
      * destruct (matches sel e);
          [by apply list_elem_of_singleton in H|by apply elem_of_nil in H].
      * rewrite Hj. cbn. by apply IH in Hq.
    + intros (e' & He' & Hm). right.
      destruct (cs !! i) as [c|] eqn:Hi; [|done]. cbn in He'.
      exists i, q, c. split_and!; [done..|]. apply IH. by exists e'.
Qed.

Lemma NoDup_indexed (F : node → list path) cs : ∀ k,
  Forall (λ c, NoDup (F c)) cs → NoDup (indexed F k cs).
Proof.
  induction cs as [|c cs IH]; intros k H; [constructor|].
  apply Forall_cons in H as [Hc Hcs]. cbn. apply NoDup_app. split_and!.
  - apply NoDup_fmap_2; [|done]. by intros ?? [=].
  - intros p (q & -> & _)%list_elem_of_fmap
      (j & q' & c' & [= ? _] & _)%elem_of_indexed. lia.
  - by apply IH.
Qed.

Lemma node_at_alter_at f p : ∀ n,
  node_at p (alter_at f p n) = f <$> node_at p n.
Proof.
  induction p as [|i q IH]; intros n; [done|].
  destruct n as [s|e cs]; [done|]. cbn.
  rewrite list_lookup_alter_eq. destruct (cs !! i) as [c|]; cbn; [apply IH|done].
Qed.

(** A write at [p] leaves every node that is not at or below [p] what it
    was by itself... *)
Lemma label_alter_at f p : ∀ q n,
  ¬ p `prefix_of` q →
  label <$> node_at q (alter_at f p n) = label <$> node_at q n.
Proof.
  induction p as [|i p IH]; intros q n Hq.
  { destruct Hq. apply prefix_nil. }
  destruct n as [s|e cs]; [done|].
  destruct q as [|j q]; [done|]. cbn.
  destruct (decide (i = j)) as [->|Hij].
  - rewrite list_lookup_alter_eq. destruct (cs !! j) as [c|]; cbn; [|done].
    apply IH. intros Hp. by apply Hq, prefix_cons.
  - by rewrite list_lookup_alter_ne.
Qed.

(** ... and every node that is neither above nor below [p] untouched. *)
Lemma node_at_alter_at_apart f p : ∀ q n,
  ¬ p `prefix_of` q → ¬ q `prefix_of` p →
  node_at q (alter_at f p n) = node_at q n.
Proof.
  induction p as [|i p IH]; intros q n Hpq Hqp.
  { destruct Hpq. apply prefix_nil. }
  destruct q as [|j q]; [destruct Hqp; apply prefix_nil|].
  destruct n as [s|e cs]; [done|]. cbn.
  destruct (decide (i = j)) as [->|Hij].
  - rewrite list_lookup_alter_eq. destruct (cs !! j) as [c|]; cbn; [|done].
    apply IH; intros Hp; [apply Hpq|apply Hqp]; by apply prefix_cons.
  - by rewrite list_lookup_alter_ne.
Qed.

Lemma head_indexed_cons (F : node → list path) k c cs :
  head (indexed F k (c :: cs)) =
  match head (F c) with
  | Some q => Some (k :: q)
  | None => head (indexed F (S k) cs)
  end.
Proof. cbn. rewrite head_app. by destruct (F c). Qed.

Lemma head_indexed_alter (F : node → list path) (g : node → node) i q :
  ∀ cs k,
  head (indexed F k cs) = Some ((k + i) :: q) →
  (∀ c, cs !! i = Some c → head (F c) = Some q → head (F (g c)) = Some q) →
  head (indexed F k (alter g i cs)) = Some ((k + i) :: q).
Proof.
  induction i as [|i IH]; intros [|c cs] k; try done.
  - rewrite Nat.add_0_r. cbn [alter list_alter]. rewrite !head_indexed_cons.
    intros H Hg. destruct (head (F c)) as [q0|] eqn:Hc.
    + injection H as ->. by rewrite (Hg c).
    + apply head_Some_elem_of, elem_of_indexed in H
        as (j & ? & ? & [= ? _] & _). lia.
  - cbn [alter list_alter]. rewrite !head_indexed_cons.
    intros H Hg. destruct (head (F c)) as [q0|] eqn:Hc.
    + injection H as ? _. lia.
    + replace (k + S i) with (S k + i) in * by lia. by apply IH.
Qed.

(** Replacing the children of the first match leaves it the first
    match. *)
Lemma head_select_set_children sel cs' p : ∀ n,
  head (select sel n) = Some p →
  head (select sel (alter_at (set_children cs') p n)) = Some p.
Proof.
  induction p as [|i p IH]; intros [s|e cs]; try done; cbn.
  - destruct (matches sel e); [done|]. cbn.
    intros (j & ? & ? & ? & _)%head_Some_elem_of%elem_of_indexed. done.
  - destruct (matches sel e); [done|]. cbn. intros H.
    apply (head_indexed_alter _ _ i p cs 0); [done|].
    intros c _. apply IH.
Qed.

Lemma jq_is_visible_select sel doc :
  jq_is_visible (select sel doc) doc = true ↔
  ∃ p e, element_at p doc = Some e ∧ matches sel e = true
         ∧ visible p doc = true.
Proof.
  unfold jq_is_visible. rewrite existsb_exists. split.
  - intros (p & (e & He & Hm)%list_elem_of_In%elem_of_select & Hv).
    by exists p, e.
  - intros (p & e & He & Hm & Hv). exists p. split; [|done].
    apply list_elem_of_In, elem_of_select. by exists e.
Qed.

(** [nearest] answers an element on the way to [p] that matches. *)
Lemma nearest_Some sel p : ∀ n r,
  nearest sel p n = Some r →
  r `prefix_of` p ∧ ∃ e, element_at r n = Some e ∧ matches sel e = true.
Proof.
  induction p as [|i p IH]; intros [s|e cs] r; try done; cbn.
  - destruct (matches sel e) eqn:Hm; [|done]. intros [= <-].
    split; [done|]. by exists e.
  - destruct (cs !! i) as [c|] eqn:Hc;
      [destruct (nearest sel p c) as [r'|] eqn:Hr|].
    + intros [= <-]. apply IH in Hr as [Hpre (e' & He' & Hm)].
      split; [by apply prefix_cons|]. exists e'. split; [|done].
      unfold element_at in *. cbn. by rewrite Hc.
    + destruct (matches sel e) eqn:Hm; [|done]. intros [= <-].
      split; [apply prefix_nil|]. by exists e.
    + destruct (matches sel e) eqn:Hm; [|done]. intros [= <-].
      split; [apply prefix_nil|]. by exists e.
Qed.

Lemma nearest_None sel p : ∀ n r e,
  nearest sel p n = None →
  r `prefix_of` p → element_at r n = Some e → matches sel e = false.
Proof.
  unfold element_at.
  induction p as [|i p IH]; intros [s|e0 cs] r e; cbn; intros Hn Hpre He.
  - apply prefix_nil_inv in Hpre as ->. done.
  - apply prefix_nil_inv in Hpre as ->. injection He as <-.
    by destruct (matches sel e0).
  - by destruct r.
  - destruct r as [|j r].
    + injection He as <-. destruct (matches sel e0); [|done].
      destruct (cs !! i) as [c|]; [|done]. by destruct (nearest sel p c).
    + pose proof (prefix_cons_inv_1 _ _ _ _ Hpre) as ->.
      apply prefix_cons_inv_2 in Hpre. cbn in He.
      destruct (cs !! i) as [c|]; [|done]. cbn in He.
      destruct (nearest sel p c) eqn:Hc; [done|]. by eapply IH.
Qed.

(** No match lies between the answer of [nearest] and [p]. *)
Lemma nearest_is_nearest sel p : ∀ n r r' e,
  nearest sel p n = Some r →
  r' `prefix_of` p → element_at r' n = Some e → matches sel e = true →
  r' `prefix_of` r.
Proof.
  unfold element_at.
  induction p as [|i p IH]; intros [s|e0 cs] r r' e; cbn;
    intros Hn Hpre He Hm; try done.
  - apply prefix_nil_inv in Hpre as ->. apply prefix_nil.
  - destruct r' as [|j r']; [apply prefix_nil|].
    pose proof (prefix_cons_inv_1 _ _ _ _ Hpre) as ->.
    apply prefix_cons_inv_2 in Hpre. cbn in He.
    destruct (cs !! i) as [c|]; [|done]. cbn in He.
    destruct (nearest sel p c) as [r0|] eqn:Hr0.
    + injection Hn as <-. apply prefix_cons. by eapply IH.
    + pose proof (nearest_None sel p c r' e Hr0 Hpre) as Hf.
      unfold element_at in Hf. rewrite (Hf He) in Hm. done.
Qed.

(** ** Strings: lemmas *)

Lemma append_nil_r s : s +:+ "" = s.
Proof. induction s as [|c s IH]; cbn; [done|by rewrite IH]. Qed.

Lemma append_assoc s t u : (s +:+ t) +:+ u = s +:+ t +:+ u.
Proof. induction s as [|c s IH]; cbn; [done|by rewrite IH]. Qed.

Lemma all_chars_append P s t :
  all_chars P (s +:+ t) = all_chars P s && all_chars P t.
Proof.
  induction s as [|c s IH]; cbn; [done|]. by rewrite IH, andb_assoc.
Qed.

Lemma all_chars_impl (P Q : ascii → bool) s :
  (∀ c, P c = true → Q c = true) →
  all_chars P s = true → all_chars Q s = true.
Proof.
  intros HPQ. induction s as [|c s IH]; cbn; [done|].
  intros [Hc Hs]%andb_true_iff. by rewrite (HPQ c Hc), IH.
Qed.

(** *** [split] *)

Lemma split_no_sep sep s :
  all_chars (λ c, negb (Ascii.eqb c sep)) s = true → split sep s = [s].
Proof.
  induction s as [|c s IH]; cbn; [done|].
  intros [Hc Hs]%andb_true_iff. apply negb_true_iff in Hc.
  by rewrite Hc, IH.
Qed.

Lemma split_append_sep sep s t :
  all_chars (λ c, negb (Ascii.eqb c sep)) s = true →
  split sep (s +:+ String sep t) = s :: split sep t.
Proof.
  induction s as [|c s IH]; cbn.
  - by rewrite Ascii.eqb_refl.
  - intros [Hc Hs]%andb_true_iff. apply negb_true_iff in Hc.
    by rewrite Hc, IH.
Qed.

Lemma split_cons_other sep c s :
  Ascii.eqb c sep = false →
  split sep (String c s) =
  match split sep s with
  | [] => [String c EmptyString]
  | x :: xs => String c x :: xs
  end.
Proof. intros Hc. cbn. by rewrite Hc. Qed.

(** *** [trim] *)

Lemma trim_right_no_space s :
  all_chars (λ c, negb (is_space c)) s = true → trim_right s = s.
Proof.
  induction s as [|c s IH]; cbn; [done|].
  intros [Hc Hs]%andb_true_iff. apply negb_true_iff in Hc.
  rewrite IH, Hc by done. by destruct s.
Qed.

Lemma trim_no_space s :
  all_chars (λ c, negb (is_space c)) s = true → trim s = s.
Proof.
  intros Hs. unfold trim. destruct s as [|c s]; [done|].
  cbn [trim_left]. cbn in Hs. apply andb_true_iff in Hs as [Hc Hs].
  apply negb_true_iff in Hc as Hc'. rewrite Hc'.
  apply trim_right_no_space. cbn. by rewrite Hc, Hs.
Qed.

Lemma trim_leading_space s : trim (String " " s) = trim s.
Proof. done. Qed.

(** *** The cookie string *)

Lemma well_formed_pair c :
  well_formed_cookie c = true →
  all_chars value_char (cookie_pair c) = true.
Proof.
  destruct c as [n v]. unfold well_formed_cookie, cookie_pair. cbn.
  intros [Hn Hv]%andb_true_iff. rewrite !all_chars_append. cbn.
  rewrite Hv, andb_true_r. eapply all_chars_impl; [|done].
  by intros c [? _]%andb_true_iff.
Qed.

Lemma pair_no_semicolon c :
  well_formed_cookie c = true →
  all_chars (λ a, negb (Ascii.eqb a ";")) (cookie_pair c) = true.
Proof.
  intros H%well_formed_pair. eapply all_chars_impl; [|done].
  by intros a [_ ?]%andb_true_iff.
Qed.

Lemma pair_no_space c :
  well_formed_cookie c = true →
  all_chars (λ a, negb (is_space a)) (cookie_pair c) = true.
Proof.
  intros H%well_formed_pair. eapply all_chars_impl; [|done].
  by intros a [? _]%andb_true_iff.
Qed.

Lemma document_cookie_one c : document_cookie [c] = cookie_pair c.
Proof. done. Qed.

Lemma document_cookie_more c c' jar :
  document_cookie (c :: c' :: jar) =
  cookie_pair c +:+ String ";" (String " " (document_cookie (c' :: jar))).
Proof. done. Qed.

(** The pieces [split] cuts [document.cookie] into: the first pair, and
    every other pair behind a space. *)
Lemma split_document_cookie jar : ∀ c,
  well_formed_jar (c :: jar) = true →
  split ";" (document_cookie (c :: jar)) =
  cookie_pair c :: ((λ c, String " " (cookie_pair c)) <$> jar).
Proof.
  induction jar as [|c' jar IH]; intros c H;
    apply andb_true_iff in H as [Hc Hjar].
  - rewrite document_cookie_one. by apply split_no_sep, pair_no_semicolon.
  - rewrite document_cookie_more.
    rewrite split_append_sep by by apply pair_no_semicolon.
    rewrite split_cons_other by done. by rewrite IH.
Qed.

Lemma document_cookie_cons c jar : document_cookie (c :: jar) ≠ "".
Proof.
  unfold document_cookie. destruct c as [n v]. cbn.
  destruct jar; by destruct n.
Qed.

Lemma eqb_cons a s b t :
  String.eqb (String a s) (String b t) = Ascii.eqb a b && String.eqb s t.
Proof. cbn. by destruct (Ascii.eqb a b). Qed.

(** The test of [getCookie] on a pair tells whether the pair has the
    name. *)
Lemma pair_starts_with name : ∀ n v,
  all_chars name_char name = true → all_chars name_char n = true →
  String.eqb (substring 0 (String.length name + 1) (n +:+ "=" +:+ v))
             (name +:+ "=")
  = String.eqb n name.
Proof.
  induction name as [|a name IH]; intros [|c n] v;
    cbn -[String.eqb Ascii.eqb]; rewrite ?eqb_cons.
  - intros _ _. by destruct v.
  - intros _ [[_ Hc]%andb_true_iff _]%andb_true_iff.
    apply negb_true_iff in Hc. by rewrite Hc.
  - intros [[_ Ha]%andb_true_iff _]%andb_true_iff _.
    apply negb_true_iff in Ha. by rewrite Ascii.eqb_sym, Ha.
  - intros [_ Hname]%andb_true_iff [_ Hn]%andb_true_iff.
    f_equal. by apply IH.
Qed.

Lemma pair_value n v :
  substring_from (String.length n + 1) (n +:+ "=" +:+ v) = v.
Proof. induction n as [|c n IH]; cbn; [done|apply IH]. Qed.

Lemma getCookie_loop_pairs name pieces jar :
  all_chars name_char name = true →
  well_formed_jar jar = true →
  Forall2 (λ piece c, trim piece = cookie_pair c) pieces jar →
  getCookie_loop name pieces = decoded (cookie_value name jar).
Proof.
  intros Hname Hjar H. induction H as [|piece [n v] pieces jar Hp _ IH];
    [done|].
  apply andb_true_iff in Hjar as [[Hn _]%andb_true_iff Hjar].
  cbn [getCookie_loop cookie_value]. rewrite Hp. unfold cookie_pair.
  cbn [fst snd]. rewrite pair_starts_with by done.
  destruct (String.eqb_spec n name) as [->|_]; [|by apply IH].
  by rewrite pair_value.
Qed.

(** [getCookie] reads the value of the first cookie of that name off
    [document.cookie], decoded, and answers [null] when there is none. *)
Lemma getCookie_document_cookie name jar :
  all_chars name_char name = true →
  well_formed_jar jar = true →
  getCookie (document_cookie jar) name = decoded (cookie_value name jar).
Proof.
  intros Hname Hjar. destruct jar as [|c jar]; [done|]. unfold getCookie.
  destruct (String.eqb_spec (document_cookie (c :: jar)) "") as [H|_];
    [by apply document_cookie_cons in H|].
  cbn [negb]. rewrite split_document_cookie by done.
  apply getCookie_loop_pairs; [done..|].
  assert (well_formed_cookie c = true
          ∧ forallb well_formed_cookie jar = true) as [Hc Hrest]
    by by apply andb_true_iff.
  rewrite forallb_forall in Hrest. constructor.
  - by apply trim_no_space, pair_no_space.
  - apply Forall2_fmap_l, Forall_Forall2_diag, Forall_forall.
    intros c' Hc'. unfold compose. rewrite trim_leading_space.
    by apply trim_no_space, pair_no_space, Hrest, list_elem_of_In.
Qed.

(** *** Literal patterns *)

(** Two code units have the same upper-case form exactly when they have
    the same lower-case form. *)
Lemma lower_case_canonicalize c : lower_case (canonicalize c) = lower_case c.
Proof. by destruct c as [[] [] [] [] [] [] [] []]; vm_compute. Qed.

Lemma canonicalize_lower_case c : canonicalize (lower_case c) = canonicalize c.
Proof. by destruct c as [[] [] [] [] [] [] [] []]; vm_compute. Qed.

Lemma same_case_form a b :
  canonicalize a = canonicalize b ↔ lower_case a = lower_case b.
Proof.
  split; intros H.
  - by rewrite <- (lower_case_canonicalize a), H, lower_case_canonicalize.
  - by rewrite <- (canonicalize_lower_case a), H, canonicalize_lower_case.
Qed.

Lemma match_here_spec q : ∀ t,
  match_here q t = true ↔ ∃ m b, t = m +:+ b ∧ fold_case m = fold_case q.
Proof.
  induction q as [|p q IH]; intros t; cbn.
  - split; [|done]. intros _. by exists "", t.
  - destruct t as [|c t].
    + split; [done|]. intros ([|??] & b & ? & ?); done.
    + rewrite andb_true_iff, Ascii.eqb_eq, same_case_form, IH. split.
      * intros (Hc & m & b & -> & Hm). exists (String c m), b.
        cbn. by rewrite Hm, Hc.
      * intros ([|c' m] & b & Ht & Hm); [done|].
        cbn in Ht, Hm. simplify_eq. split; [done|]. by exists m, b.
Qed.

(** The test of a literal pattern is containment up to case. *)
Lemma test_literal_spec q : ∀ t,
  test_literal q t = true ↔ contains_ignoring_case q t.
Proof.
  unfold contains_ignoring_case.
  induction t as [|c t IH]; cbn; rewrite orb_true_iff, match_here_spec.
  - split.
    + intros [(m & b & ? & ?)|]; [|done]. by exists "", m, b.
    + intros ([|??] & m & b & ? & ?); [|done]. left. by exists m, b.
  - rewrite IH. split.
    + intros [(m & b & ? & ?)|(a & m & b & -> & ?)].
      * by exists "", m, b.
      * by exists (String c a), m, b.
    + intros ([|c' a] & m & b & Ht & Hm).
      * left. by exists m, b.
      * right. cbn in Ht. simplify_eq. by exists a, m, b.
Qed.


(** ** Texts of jQuery sets *)

Lemma jq_text_app q1 q2 doc :
  jq_text (q1 ++ q2) doc = jq_text q1 doc +:+ jq_text q2 doc.
Proof.
  unfold jq_text.
  induction q1 as [|p q1 IH]; cbn; [done|]. by rewrite IH, append_assoc.
Qed.

Lemma texts_app ns1 ns2 : texts (ns1 ++ ns2) = texts ns1 +:+ texts ns2.
Proof.
  unfold texts.
  induction ns1 as [|n ns1 IH]; cbn; [done|]. by rewrite IH, append_assoc.
Qed.

Lemma jq_text_under i q e cs c :
  cs !! i = Some c → jq_text ((i ::.) <$> q) (Elem e cs) = jq_text q c.
Proof.
  intros Hc. unfold jq_text. induction q as [|p q IH]; cbn; [done|].
  rewrite Hc. cbn. f_equal. apply IH.
Qed.

Lemma jq_text_indexed sel e cs : ∀ pre,
  Forall (λ c, jq_text (select sel c) c
               = texts (List.filter (is_match sel) (c :: descendants c))) cs →
  jq_text (indexed (select sel) (length pre) cs) (Elem e (pre ++ cs)) =
  texts (List.filter (is_match sel) (flat_map (λ c, c :: descendants c) cs)).
Proof.
  induction cs as [|c cs IH]; intros pre H; [done|].
  apply Forall_cons in H as [Hc Hcs].
  cbn [indexed flat_map]. rewrite jq_text_app, List.filter_app, texts_app.
  f_equal.
  - rewrite <- Hc. apply jq_text_under. by apply list_lookup_middle.
  - specialize (IH (pre ++ [c]) Hcs).
    rewrite length_app, Nat.add_1_r, <- app_assoc in IH. apply IH.
Qed.

(** The text of the matches of a selector, read through paths, is the
    text of the matching nodes in document order. *)
Lemma jq_text_select sel : ∀ n,
  jq_text (select sel n) n =
  texts (List.filter (is_match sel) (n :: descendants n)).
Proof.
  induction n as [s|e cs IH] using node_ind_children; [done|].
  pose proof (jq_text_indexed sel e cs [] IH) as Hcs.
  cbn [length app] in Hcs.
  cbn [select descendants List.filter is_match].
  rewrite jq_text_app, Hcs.
  destruct (matches sel e); cbn; [|done]. by rewrite append_nil_r.
Qed.

Lemma jq_find_root sel n : jq_find sel [[]] n = select_below sel n.
Proof.
  unfold jq_find. cbn. rewrite app_nil_r.
  induction (select_below sel n) as [|p q IH]; cbn; [done|].
  by rewrite IH.
Qed.

Lemma jq_text_find sel n :
  jq_text (jq_find sel [[]] n) n =
  texts (List.filter (is_match sel) (descendants n)).
Proof.
  rewrite jq_find_root. destruct n as [s|e cs]; [done|].
  apply (jq_text_indexed sel e cs []), Forall_forall.
  intros c _. apply jq_text_select.
Qed.

(** The row callback shows the row exactly when the pattern matches its
    text. *)
Lemma filter_row_spec regex e cs :
  filter_row regex e cs = set_displayed (regex (row_text (Elem e cs))) e.
Proof.
  unfold filter_row, row_text, display_text. rewrite !jq_text_find.
  unfold join, show, hide. cbn [String.concat].
  by destruct (regex _).
Qed.

Lemma select_below_jq_each sel' sel f n :
  (∀ e cs, matches sel' (f e cs) = matches sel' e) →
  select_below sel' (jq_each sel f n) = select_below sel' n.
Proof.
  intros Hm. destruct n as [s|e cs]; [done|]. cbn.
  apply indexed_fmap, Forall_forall. intros c _. by apply select_jq_each.
Qed.

Lemma jq_text_jq_each sel f q n :
  jq_text q (jq_each sel f n) = jq_text q n.
Proof.
  unfold jq_text. induction q as [|p q IH]; cbn; [done|].
  rewrite IH, node_at_jq_each. destruct (node_at p n); cbn; [|done].
  by rewrite textContent_jq_each.
Qed.

Lemma display_text_paths c n :
  display_text c n = jq_text (select_below (ByClass c) n) n.
Proof. unfold display_text. by rewrite <- jq_text_find, jq_find_root. Qed.

(** Writers that leave the classes alone leave the text of the rows
    alone. *)
Lemma row_text_jq_each sel f n :
  (∀ sel' e cs, matches sel' (f e cs) = matches sel' e) →
  row_text (jq_each sel f n) = row_text n.
Proof.
  intros Hm. unfold row_text. rewrite !display_text_paths.
  by rewrite !select_below_jq_each, !jq_text_jq_each.
Qed.

Lemma matches_set_displayed sel b e :
  matches sel (set_displayed b e) = matches sel e.
Proof. by destruct sel. Qed.

(** ** The vocabulary and the calls of the script *)

Lemma has_class_of_class c e : has_class c e = true ↔ of_class c e.
Proof.
  unfold has_class, of_class. rewrite existsb_exists. split.
  - intros (x & Hx & ->%String.eqb_eq). by apply list_elem_of_In.
  - intros H. exists c. split; [by apply list_elem_of_In|apply String.eqb_refl].
Qed.

Lemma matches_ById i e : matches (ById i) e = true ↔ with_id i e.
Proof.
  unfold with_id. cbn. destruct (attr_id (mk e)) as [j|]; [|done].
  rewrite String.eqb_eq. split; congruence.
Qed.

(** [:visible] as the model has it: the element is there and shown. *)
Lemma element_at_cons i q e cs :
  element_at (i :: q) (Elem e cs) = cs !! i ≫= element_at q.
Proof. unfold element_at. cbn. by destruct (cs !! i). Qed.

Lemma shown_cons i q e cs c :
  cs !! i = Some c →
  shown (i :: q) (Elem e cs) ↔ displayed (mk e) = true ∧ shown q c.
Proof.
  intros Hc. split.
  - intros H. split; [by apply (H []); [apply prefix_nil|]|].
    intros r a Hr Ha. apply (H (i :: r)); [by apply prefix_cons|].
    by rewrite element_at_cons, Hc.
  - intros [He H] [|j r] a Hr Ha.
    + by injection Ha as <-.
    + pose proof (prefix_cons_inv_1 _ _ _ _ Hr) as ->.
      apply prefix_cons_inv_2 in Hr. rewrite element_at_cons, Hc in Ha.
      by apply (H r).
Qed.

Lemma visible_shown p : ∀ doc,
  visible p doc = true ↔ is_Some (element_at p doc) ∧ shown p doc.
Proof.
  induction p as [|i p IH]; intros [t|e cs]; cbn [visible].
  - split; [done|]. by intros [[? ?] _].
  - rewrite andb_true_r. split.
    + intros He. split; [by eexists|]. intros q a ->%prefix_nil_inv.
      by intros [= <-].
    + intros [_ H]. by apply (H []).
  - split; [done|]. by intros [[? ?] _].
  - rewrite element_at_cons. destruct (cs !! i) as [c|] eqn:Hc; cbn.
    + rewrite andb_true_iff, IH, (shown_cons _ _ _ _ _ Hc). tauto.
    + rewrite andb_false_r. split; [done|]. by intros [[? ?] _].
Qed.

Lemma jq_is_visible_overlay c doc :
  jq_is_visible (select (ByClass c) doc) doc = true ↔ overlay_visible c doc.
Proof.
  rewrite jq_is_visible_select. unfold overlay_visible. split.
  - intros (p & e & He & Hm & [_ Hv]%visible_shown). exists p, e.
    split; [done|]. split; [by apply has_class_of_class|done].
  - intros (p & e & He & Hm & Hv). exists p, e. split; [done|].
    split; [by apply has_class_of_class|]. apply visible_shown.
    split; [by eexists|done].
Qed.

(** *** Document order *)

Lemma precedes_antisym p : ∀ q, precedes p q → precedes q p → p = q.
Proof.
  induction p as [|i p IH]; intros [|j q]; cbn; try done.
  intros [?|[-> Hpq]] [?|[? Hqp]]; try lia. f_equal. by apply IH.
Qed.

Lemma head_indexed_Some (F : node → list path) cs : ∀ k r,
  head (indexed F k cs) = Some r →
  ∃ i c q, r = (k + i) :: q ∧ cs !! i = Some c ∧ head (F c) = Some q
           ∧ ∀ j c', j < i → cs !! j = Some c' → F c' = [].
Proof.
  induction cs as [|c cs IH]; intros k r; [done|].
  rewrite head_indexed_cons. destruct (head (F c)) as [q|] eqn:Hq.
  - intros [= <-]. exists 0, c, q. rewrite Nat.add_0_r.
    split_and!; [done..|]. intros j c' Hj. lia.
  - intros (i & c0 & q & -> & Hc0 & Hq0 & Hbefore)%IH.
    exists (S i), c0, q. split_and!; [f_equal; lia|done..|].
    intros [|j] c' Hj; cbn.
    + intros [= <-]. by destruct (F c).
    + apply Hbefore. lia.
Qed.

(** [select] answers in document order: its head comes first. *)
Lemma head_select_precedes sel p : ∀ n q,
  head (select sel n) = Some p → q ∈ select sel n → precedes p q.
Proof.
  induction p as [|i p IH]; intros [t|e cs] q; try done; cbn.
  destruct (matches sel e); [done|]. cbn.
  intros (i' & c & p' & Heq & Hc & Hp & Hbefore)%head_indexed_Some.
  cbn in Heq. injection Heq as -> ->.
  intros (j & q' & c' & -> & Hc' & Hq')%elem_of_indexed. cbn.
  destruct (decide (i' < j)) as [|Hij]; [by left|]. right.
  destruct (decide (j < i')) as [Hlt|].
  { rewrite (Hbefore j c' Hlt Hc') in Hq'. by apply elem_of_nil in Hq'. }
  assert (i' = j) as -> by lia. split; [done|].
  rewrite Hc in Hc'. injection Hc' as <-. by apply (IH c).
Qed.

(** The head of [select] is the first element that matches. *)
Lemma head_select_first sel doc p :
  head (select sel doc) = Some p
  ↔ first_element (λ e, matches sel e = true) doc p.
Proof.
  split.
  - intros Hp. split.
    + by apply elem_of_select, head_Some_elem_of.
    + intros q e He Hm. apply (head_select_precedes sel p doc); [done|].
      apply elem_of_select. by exists e.
  - intros [(e & He & Hm) Hfirst].
    assert (p ∈ select sel doc) as Hin by (apply elem_of_select; by exists e).
    destruct (select sel doc) as [|p0 l] eqn:Hsel; [by apply elem_of_nil in Hin|].
    cbn. f_equal.
    assert (p0 ∈ select sel doc) as (e0 & He0 & Hm0)%elem_of_select
      by (rewrite Hsel; apply list_elem_of_here).
    apply precedes_antisym; [|by apply (Hfirst p0 e0)].
    apply (head_select_precedes sel p0 doc); [by rewrite Hsel|].
    by rewrite Hsel.
Qed.

Lemma first_element_ext (P Q : element → Prop) doc p :
  (∀ e, P e ↔ Q e) → first_element P doc p ↔ first_element Q doc p.
Proof.
  intros HPQ. unfold first_element. split.
  - intros [(e & He & HP) H]. split; [exists e; by rewrite <- HPQ|].
    intros q a Ha HQ. apply (H q a); [done|by apply HPQ].
  - intros [(e & He & HP) H]. split; [exists e; by rewrite HPQ|].
    intros q a Ha HQ. apply (H q a); [done|by apply HPQ].
Qed.

Lemma head_select_class c doc p :
  head (select (ByClass c) doc) = Some p ↔ first_element (of_class c) doc p.
Proof.
  rewrite head_select_first. apply first_element_ext. intros e.
  apply has_class_of_class.
Qed.

Lemma getElementById_first name doc p :
  getElementById name doc = Some p ↔ first_element (with_id name) doc p.
Proof.
  unfold getElementById. rewrite head_select_first.
  apply first_element_ext. intros e. apply matches_ById.
Qed.

(** The first element that is [P] is one element. *)
Lemma first_element_unique P doc p q :
  first_element P doc p → first_element P doc q → p = q.
Proof.
  intros [(e & He & HP) Hp] [(a & Ha & HQ) Hq].
  apply precedes_antisym; [by apply (Hp q a)|by apply (Hq p e)].
Qed.

(** *** URLs *)

Lemma prefix_starts_with pre u :
  String.prefix pre u = true ↔ starts_with pre u.
Proof.
  unfold starts_with. split.
  - intros H. apply String.prefix_correct in H. exists (substring_from (String.length pre) u).
    revert u H. induction pre as [|c pre IH]; intros u H; [by destruct u|].
    destruct u as [|d u]; [done|]. cbn in H. injection H as <- H.
    cbn. f_equal. by apply IH.
  - intros [rest ->]. apply String.prefix_correct.
    induction pre as [|c pre IH]; cbn; [by destruct rest|]. by rewrite IH.
Qed.

(** ** The refresh tick *)

Lemma truthy_search_value doc :
  truthy (jq_val (select (ByClass "search") doc) doc) = true
  ↔ search_nonempty doc.
Proof.
  unfold search_nonempty, search_field.
  destruct (select (ByClass "search") doc) as [|p q] eqn:Hsel; cbn.
  - split; [done|]. intros (p & e & Hp%head_select_class & _).
    by rewrite Hsel in Hp.
  - assert (head (select (ByClass "search") doc) = Some p) as Hhead
      by by rewrite Hsel.
    assert (p ∈ select (ByClass "search") doc) as (e & He & _)%elem_of_select
      by (rewrite Hsel; left).
    rewrite He. cbn. rewrite negb_true_iff, String.eqb_neq. split.
    + intros Hv. exists p, e. by rewrite <- head_select_class.
    + intros (p' & e' & Hp'%head_select_class & He' & Hv). congruence.
Qed.

(** The test of [refresh] is the disjunction of the three conditions. *)
Lemma refresh_test_spec doc :
  jq_is_visible
    (jq_select (ByClass "bootstrap-datetimepicker-widget") doc) doc
  || truthy (jq_val (jq_select (ByClass "search") doc) doc)
  || jq_is_visible (jq_select (ByClass "popover") doc) doc = true
  ↔ held_back doc.
Proof.
  unfold jq_select, held_back, datepicker_visible, popover_visible.
  rewrite !orb_true_iff, !jq_is_visible_overlay, truthy_search_value.
  tauto.
Qed.

Lemma held_back_or_not doc : held_back doc ∨ ¬ held_back doc.
Proof.
  rewrite <- refresh_test_spec. destruct (_ || _); [by left|by right].
Qed.

Lemma snoc_neq {A} (l : list A) x : l ≠ l ++ [x].
Proof.
  intros H%(f_equal length). rewrite length_app in H. cbn in H. lia.
Qed.

(** [beforeSend] on the two requests of the script, whose URLs are
    relative. *)
Lemma ajax_relative settings s :
  test_http (url settings) || test_https (url settings) = false →
  ajax settings s =
  match getCookie (cookie s) "csrftoken" with
  | Normal v =>
      Returns (set_requests
                 (requests s ++ [setRequestHeader "X-CSRFToken" v settings])
                 s)
  | Throw e => Throws e s
  end.
Proof.
  intros Hrel. unfold ajax, beforeSend. rewrite Hrel. cbn [negb].
  by destruct (getCookie _ _).
Qed.

Lemma refresh_skips s : held_back (document s) → refresh s = Returns s.
Proof.
  intros Hheld%refresh_test_spec. unfold refresh. by rewrite Hheld.
Qed.

(** What a tick does when nothing holds it back. *)
Lemma refresh_fetches s :
  ¬ held_back (document s) →
  refresh s =
  match getCookie (cookie s) "csrftoken" with
  | Normal tok =>
      Returns (set_requests
                 (requests s ++ [table_request [("X-CSRFToken", tok)]]) s)
  | Throw e => Throws e s
  end.
Proof.
  intros Hheld. unfold refresh.
  destruct (_ || _) eqn:Hb; [by apply refresh_test_spec in Hb|].
  unfold ajax_get. by rewrite ajax_relative.
Qed.

Lemma scheduleRefresh_skips s :
  held_back (document s) →
  scheduleRefresh s = Returns (setTimeout ScheduleRefresh (10 * 1000) s).
Proof. intros H. unfold scheduleRefresh. by rewrite refresh_skips. Qed.

Lemma scheduleRefresh_fetches s :
  ¬ held_back (document s) →
  scheduleRefresh s =
  match getCookie (cookie s) "csrftoken" with
  | Normal tok =>
      Returns (setTimeout ScheduleRefresh (10 * 1000)
                 (set_requests
                    (requests s ++ [table_request [("X-CSRFToken", tok)]])
                    s))
  | Throw e => Throws e s
  end.
Proof.
  intros H. unfold scheduleRefresh. rewrite refresh_fetches by done.
  by destruct (getCookie _ _).
Qed.

Lemma initiations_scheduleRefresh s :
  initiations (state_of (scheduleRefresh s)) = initiations s.
Proof.
  destruct (held_back_or_not (document s)) as [H|H].
  - by rewrite scheduleRefresh_skips.
  - rewrite scheduleRefresh_fetches by done. by destruct (getCookie _ _).
Qed.

(** C1. A tick that is held back (a date-picker overlay is visible, or
    the search field holds a non-empty value, or a popover overlay is
    visible) issues no request.  A tick that is not held back calls
    [$.ajax] for [/mails/table/]: the GET is issued, with the CSRF header,
    when the [csrftoken] cookie can be read; when reading it throws, the
    tick throws and no request is issued.  So with a readable cookie no
    fetch is issued if and only if the tick is held back. *)
Theorem tick_fetches_unless_held_back (s : state) :
  (held_back (document s) →
   requests (state_of (scheduleRefresh s)) = requests s)
  ∧ (¬ held_back (document s) →
     match getCookie (cookie s) "csrftoken" with
     | Normal tok =>
         requests (state_of (scheduleRefresh s))
         = requests s ++ [table_request [("X-CSRFToken", tok)]]
     | Throw e => scheduleRefresh s = Throws e s
     end)
  ∧ (∀ tok, getCookie (cookie s) "csrftoken" = Normal tok →
            (requests (state_of (scheduleRefresh s)) = requests s
             ↔ held_back (document s))
            ∧ ((∃ headers, requests (state_of (scheduleRefresh s))
                           = requests s ++ [table_request headers])
               ↔ ¬ held_back (document s))).
Proof.
  split_and!.
  - intros H. by rewrite scheduleRefresh_skips.
  - intros H. rewrite scheduleRefresh_fetches by done.
    by destruct (getCookie _ _).
  - intros tok Htok. destruct (held_back_or_not (document s)) as [H|H].
    + rewrite scheduleRefresh_skips by done. cbn. split; [done|].
      split; [|done]. by intros [headers ?%snoc_neq].
    + rewrite scheduleRefresh_fetches, Htok by done. cbn. split.
      * split; [|done]. by intros ?%symmetry%snoc_neq.
      * split; [done|]. intros _. by eexists.
Qed.

(** ** Failed requests *)

(** C6. When a request fails while the unload flag is set, no
    notification is shown (nothing changes at all); otherwise exactly one
    notification is shown, with the page-not-found text for status 404
    and the generic failure text for any other status, and every modal
    dialog is dismissed. *)
Theorem failed_request_notifies_once (r : request) (status : nat)
    (s : state) :
  if isPageBeingRefreshed s then respond_error r status s = s
  else
    notifications (respond_error r status s)
    = notifications s ++ [failure_notification status]
    ∧ (∀ p e, element_at p (document (respond_error r status s)) = Some e →
              has_class "modal" e = true → modal_shown e = false)
    ∧ serialize (document (respond_error r status s))
      = serialize (document s).
Proof.
  unfold respond_error, error. destruct (isPageBeingRefreshed s); [done|].
  cbn. split_and!.
  - unfold failure_notification. f_equal. f_equal. f_equal.
    destruct (Nat.eqb_spec status 404); by case_decide.
  - intros p e. rewrite element_at_jq_each.
    destruct (node_at p (document s)) as [[t|e0 cs]|]; [done| |done].
    intros [= <-]. unfold rewritten. cbn -[has_class].
    destruct (has_class "modal" e0) eqn:Hm; [done|]. congruence.
  - by apply serialize_jq_each.
Qed.

(** ** The refresh loop *)

Lemma timers_error status s : timers (error status s) = timers s.
Proof. unfold error. by destruct (isPageBeingRefreshed s). Qed.

Lemma timers_respond_success r payload s :
  timers (state_of (respond_success r payload s)) = timers s.
Proof.
  unfold respond_success, newTime_done.
  destruct (success r) as [|id due]; [done|]. by destruct (jq_id _ _).
Qed.

Lemma timers_keyup_event p s : timers (keyup_event p s) = timers s.
Proof. unfold keyup_event. by destruct (element_at p (document s)). Qed.

(** Nothing but a tick touches the timers. *)
Lemma timers_step ev s :
  ev ≠ Timeout → timers (step ev s) = timers s.
Proof.
  destruct ev as [|r payload|r status|p|]; cbn [step]; try done; intros _.
  - case_decide; [apply timers_respond_success|done].
  - case_decide; [apply timers_error|done].
  - apply timers_keyup_event.
Qed.

(** A tick returns exactly when it is held back or the cookie can be
    read, and then it has registered the next tick. *)
Lemma scheduleRefresh_returns s :
  held_back (document s) ∨ (∃ tok, getCookie (cookie s) "csrftoken" = Normal tok) →
  ∃ s1, scheduleRefresh s = Returns s1 ∧ timers s1 = timers s ++ [next_tick].
Proof.
  intros Hret. destruct (held_back_or_not (document s)) as [H|H].
  - rewrite scheduleRefresh_skips by done. by eexists.
  - destruct Hret as [?|[tok Htok]]; [done|].
    rewrite scheduleRefresh_fetches, Htok by done. by eexists.
Qed.

Lemma scheduleRefresh_throws s e :
  ¬ held_back (document s) → getCookie (cookie s) "csrftoken" = Throw e →
  scheduleRefresh s = Throws e s.
Proof. intros H He. by rewrite scheduleRefresh_fetches, He. Qed.

Lemma cookie_error status s : cookie (error status s) = cookie s.
Proof. unfold error. by destruct (isPageBeingRefreshed s). Qed.

Lemma cookie_scheduleRefresh s :
  cookie (state_of (scheduleRefresh s)) = cookie s.
Proof.
  destruct (held_back_or_not (document s)) as [H|H].
  - by rewrite scheduleRefresh_skips.
  - rewrite scheduleRefresh_fetches by done. by destruct (getCookie _ _).
Qed.

(** The script never writes the cookie string. *)
Lemma cookie_step ev s : cookie (step ev s) = cookie s.
Proof.
  destruct ev as [|r payload|r status|p|]; cbn [step].
  - unfold timer_fires. destruct (timers s) as [|[[] delay] rest]; [done|].
    cbn [timer_task]. by rewrite cookie_scheduleRefresh.
  - case_decide; [|done]. unfold respond_success, newTime_done.
    destruct (success r) as [|id due]; [done|]. by destruct (jq_id _ _).
  - case_decide; [apply cookie_error|done].
  - unfold keyup_event. by destruct (element_at p (document s)).
  - done.
Qed.

(** With a cookie that can be read, one timer is pending at any time from
    the load on: the next tick. *)
Lemma one_tick_pending evs : ∀ s,
  (∃ tok, getCookie (cookie s) "csrftoken" = Normal tok) →
  timers s = [next_tick] → timers (run evs s) = [next_tick].
Proof.
  induction evs as [|ev evs IH]; intros s Hc Hs; [done|]. cbn [run].
  apply IH; [by rewrite cookie_step|].
  destruct ev; try (by rewrite timers_step).
  cbn [step]. unfold timer_fires. rewrite Hs. cbn [timer_task next_tick].
  destruct (scheduleRefresh_returns (set_timers [] s)) as (s1 & -> & Ht);
    [by right|]. cbn [state_of]. by rewrite Ht.
Qed.

(** C8. A tick that returns, because it is held back or because the
    [csrftoken] cookie can be read, has registered exactly one next tick,
    10 seconds out, whether or not it fetched, and the completion of a
    fetch, successful or failed, leaves the timers alone; so with a cookie
    that can be read exactly one next tick is pending from the load on,
    whatever happens.  A tick that is not held back while reading the
    cookie throws does not reach [setTimeout]: it registers nothing, and
    the loop stops. *)
Theorem tick_schedules_one_next_tick (s : state) :
  (held_back (document s)
   ∨ (∃ tok, getCookie (cookie s) "csrftoken" = Normal tok) →
   ∃ s1, scheduleRefresh s = Returns s1
         ∧ timers s1 = timers s ++ [next_tick])
  ∧ (¬ held_back (document s) →
     ∀ e, getCookie (cookie s) "csrftoken" = Throw e →
          scheduleRefresh s = Throws e s)
  ∧ timer_delay next_tick = 10 * 1000
  ∧ (∀ r payload, timers (state_of (respond_success r payload s)) = timers s)
  ∧ (∀ r status, timers (respond_error r status s) = timers s)
  ∧ (∀ doc document_cookie evs,
       (∃ tok, getCookie document_cookie "csrftoken" = Normal tok) →
       timers (run evs (state_of (main doc document_cookie)))
       = [next_tick]).
Proof.
  split_and!.
  - apply scheduleRefresh_returns.
  - intros H e. by apply scheduleRefresh_throws.
  - done.
  - intros r payload. apply timers_respond_success.
  - intros r status. apply timers_error.
  - intros doc c evs Hc. unfold main. set (s0 := initiate _).
    destruct (scheduleRefresh_returns s0) as (s1 & Hs1 & Ht); [by right|].
    rewrite Hs1. cbn [state_of]. apply one_tick_pending; [|done].
    pose proof (cookie_scheduleRefresh s0) as Hcookie. rewrite Hs1 in Hcookie.
    cbn [state_of] in Hcookie. by rewrite Hcookie.
Qed.

(** ** The initializer *)

Lemma document_initiate s :
  document (initiate s) =
  jq_each (ByClass "search") (bind_keyup SearchFilter)
    (jq_each (ByClass "add-popover") (popover_attach hover_popover)
       (jq_each (ByClass "add-popover") popover_destroy (document s))).
Proof. done. Qed.

Lemma initiations_initiate s : initiations (initiate s) = S (initiations s).
Proof. done. Qed.

Lemma has_class_popover_destroy c e cs :
  has_class c (popover_destroy e cs) = has_class c e.
Proof. done. Qed.

Lemma has_class_popover_attach c o e cs :
  has_class c (popover_attach o e cs) = has_class c e.
Proof. done. Qed.

Lemma element_at_initiate p s :
  element_at p (document (initiate s)) = initiated <$> element_at p (document s).
Proof.
  rewrite document_initiate, element_at_jq_each, !node_at_jq_each.
  unfold element_at.
  destruct (node_at p (document s)) as [[t|e cs]|]; [done| |done].
  cbn -[has_class]. f_equal. unfold rewritten, initiated.
  cbn -[has_class].
  destruct (has_class "add-popover" e) eqn:Hp;
    rewrite ?has_class_popover_destroy, ?Hp, ?has_class_popover_attach,
      ?has_class_popover_destroy;
    destruct (has_class "search" e) eqn:Hs; by destruct e.
Qed.

Lemma has_class_initiated c e : has_class c (initiated e) = has_class c e.
Proof. done. Qed.

(** C2. Invoking the initializer twice in a row leaves every
    [.add-popover] element with exactly one popover binding, but every
    [.search] element with two keyup bindings more than it had: the
    keystroke listener is bound again without the earlier one being
    removed. *)
Theorem initiate_twice_bindings (s : state) (p : path) (e : element) :
  element_at p (document s) = Some e →
  ∃ e', element_at p (document (initiate (initiate s))) = Some e'
        ∧ (has_class "add-popover" e = true → popover e' = [hover_popover])
        ∧ (has_class "search" e = true →
           keyup e' = keyup e ++ [SearchFilter; SearchFilter]).
Proof.
  intros He. exists (initiated (initiated e)). split.
  - by rewrite !element_at_initiate, He.
  - split; intros Hc; unfold initiated at 1.
    + cbn [popover]. by rewrite has_class_initiated, Hc.
    + cbn [keyup]. rewrite has_class_initiated, Hc.
      unfold initiated. cbn [keyup]. by rewrite Hc, <- app_assoc.
Qed.

(** ** A successful refresh *)

Lemma html_ind_children (P : html → Prop) :
  (∀ s, P (HText s)) →
  (∀ m cs, Forall P cs → P (HElem m cs)) →
  ∀ h, P h.
Proof.
  intros HT HE. fix IH 1. intros [s|m cs].
  - apply HT.
  - apply HE. revert cs. fix IHcs 1. intros [|c cs].
    + constructor.
    + constructor; [apply IH | apply IHcs].
Qed.

(** Markup survives parsing and reading back. *)
Lemma serialize_parse h : serialize (parse h) = h.
Proof.
  induction h as [s|m cs IH] using html_ind_children; [done|].
  cbn. f_equal. rewrite <- list_fmap_compose.
  rewrite <- (list_fmap_id cs) at 2. by apply Forall_fmap_ext.
Qed.

Lemma innerHTML_jq_each sel f n :
  (∀ e cs, mk (f e cs) = mk e) →
  innerHTML (jq_each sel f n) = innerHTML n.
Proof.
  intros Hmk. pose proof (serialize_jq_each sel f Hmk n) as H.
  destruct n as [s|e cs]; [done|]. cbn in *. by injection H.
Qed.

Lemma getElementById_initiate name s :
  getElementById name (document (initiate s))
  = getElementById name (document s).
Proof.
  unfold getElementById. rewrite document_initiate.
  by rewrite !select_jq_each_mk.
Qed.

Lemma innerHTML_initiate p s :
  innerHTML <$> node_at p (document (initiate s))
  = innerHTML <$> node_at p (document s).
Proof.
  rewrite document_initiate, !node_at_jq_each.
  destruct (node_at p (document s)) as [n|]; [|done]. cbn.
  by rewrite !innerHTML_jq_each.
Qed.

(** The [success] callback of [refresh], on a page with a [#list]. *)
Lemma refresh_success_spec data s p :
  getElementById "list" (document s) = Some p →
  getElementById "list" (document (refresh_success data s)) = Some p
  ∧ innerHTML <$> node_at p (document (refresh_success data s)) = Some data
  ∧ initiations (refresh_success data s) = S (initiations s).
Proof.
  intros Hp. unfold refresh_success. rewrite Hp.
  rewrite getElementById_initiate, innerHTML_initiate, initiations_initiate.
  cbn. split_and!; [|  |done].
  - by apply head_select_set_children.
  - rewrite node_at_alter_at.
    apply head_Some_elem_of, elem_of_select in Hp as (e & He & _).
    unfold element_at in He.
    destruct (node_at p (document s)) as [[t|e' cs]|]; [done| |done].
    cbn. f_equal. rewrite <- list_fmap_compose.
    rewrite <- (list_fmap_id data) at 2. apply list_fmap_ext.
    intros _ h _. apply serialize_parse.
Qed.

(** C3. A refresh tick that fetches does not itself invoke the
    initializer; when its fetch succeeds with the fragment [d], in
    whatever state [s] the response finds the page, the content of the
    container [#list] is [d] afterwards and the initializer has been
    invoked exactly once more.  The tick fetches when nothing holds it
    back and the [csrftoken] cookie can be read. *)
Theorem refresh_success_replaces_list (s0 s : state) (d : list html)
    (p : path) (tok : jsval) :
  ¬ held_back (document s0) →
  getCookie (cookie s0) "csrftoken" = Normal tok →
  getElementById "list" (document s) = Some p →
  ∃ r s1 s',
    scheduleRefresh s0 = Returns s1
    ∧ requests s1 = requests s0 ++ [r]
    ∧ initiations s1 = initiations s0
    ∧ respond_success r d s = Returns s'
    ∧ getElementById "list" (document s') = Some p
    ∧ innerHTML <$> node_at p (document s') = Some d
    ∧ initiations s' = S (initiations s).
Proof.
  intros Hidle Htok Hp.
  rewrite scheduleRefresh_fetches, Htok by done.
  destruct (refresh_success_spec d s p Hp) as (Hlist & Hcontent & Hcount).
  by eexists _, _, (refresh_success d s).
Qed.

(** ** The due-date updater *)

(** [newTime] calls [$.post] and nothing else: with a cookie that can be
    read the POST is issued, and when reading it throws nothing is. *)
Lemma newTime_issues target s :
  newTime target s =
  match getCookie (cookie s) "csrftoken" with
  | Normal tok =>
      Returns (set_requests
                 (requests s
                  ++ [update_request (row_id target (document s))
                        (new_due target (document s))
                        [("X-CSRFToken", tok)]])
                 s)
  | Throw e => Throws e s
  end.
Proof.
  unfold newTime, post. rewrite ajax_relative.
  - by destruct (getCookie _ _).
  - by destruct (jq_attr_id _ _) as [| |[|??]].
Qed.

Lemma textContent_text_nodes e v : textContent (Elem e (text_nodes v)) = v.
Proof.
  unfold text_nodes. destruct (String.eqb_spec v "") as [->|_]; [done|].
  cbn. apply append_nil_r.
Qed.

(** The [.done] callback, for a plain row identifier. *)
Lemma newTime_done_plain id v s :
  plain_id id = true →
  newTime_done (JString id) (JString v) s =
  Returns (set_document
             (from_option
                (λ c, alter_at (set_children (text_nodes v)) c (document s))
                (document s)
                (getElementById ("due-" +:+ id) (document s)))
             s).
Proof.
  intros Hid. unfold newTime_done, jq_id. cbn [to_string].
  unfold plain_id in *. rewrite all_chars_append, Hid. cbn.
  by destruct (getElementById _ _).
Qed.

(** What [error] leaves of the document: the texts, and every element
    that is not a modal dialog. *)
Lemma error_document status s :
  (∀ q, textContent <$> node_at q (document (error status s))
        = textContent <$> node_at q (document s))
  ∧ (∀ q e, element_at q (document s) = Some e → ¬ of_class "modal" e →
            element_at q (document (error status s)) = Some e).
Proof.
  unfold error. destruct (isPageBeingRefreshed s); [done|]. cbn. split.
  - intros q. rewrite node_at_jq_each.
    destruct (node_at q (document s)) as [n|]; [|done]. cbn.
    by rewrite textContent_jq_each.
  - intros q e He Hm. rewrite element_at_jq_each. unfold element_at in He.
    destruct (node_at q (document s)) as [[t|e' cs]|]; [done| |done].
    injection He as ->. unfold rewritten. cbn [matches].
    destruct (has_class "modal" e) eqn:Hc; [|done].
    by apply has_class_of_class in Hc.
Qed.

(** C7. A due-date commit on the row with identifier [id], of word
    characters and hyphens, and new value [v], with a [csrftoken] cookie
    that can be read, issues the POST to [/mails/update/id/] and changes
    nothing on the page.  When the request succeeds, in whatever state the
    response finds the page, the text of the first element with the id
    [due-id] becomes [v]; the element keeps its attributes and bindings,
    every node that is not inside it stays what it was, a page without
    such an element is left as it is, and no request or timer is added, so
    no refresh is triggered.  When the request fails, the texts of the
    page and every element that is not a modal dialog are left as they
    were. *)
Theorem due_date_update_patches_cell (s : state) (target : path)
    (id v : string) (tok : jsval) :
  new_due target (document s) = JString v →
  row_id target (document s) = JString id →
  plain_id id = true →
  getCookie (cookie s) "csrftoken" = Normal tok →
  ∃ r,
    newTime target s = Returns (set_requests (requests s ++ [r]) s)
    ∧ method r = "POST"
    ∧ url r = "/mails/update/" +:+ id +:+ "/"
    ∧ data r = [("due", JString v)]
    ∧ (∀ s1 payload, ∃ s2,
         respond_success r payload s1 = Returns s2
         ∧ requests s2 = requests s1 ∧ timers s2 = timers s1
         ∧ initiations s2 = initiations s1
         ∧ (∀ c, first_element (with_id ("due-" +:+ id)) (document s1) c →
                 (∃ e cs, node_at c (document s1) = Some (Elem e cs)
                          ∧ node_at c (document s2)
                            = Some (Elem e (text_nodes v)))
                 ∧ textContent <$> node_at c (document s2) = Some v
                 ∧ ∀ q, ¬ c `prefix_of` q →
                        label <$> node_at q (document s2)
                        = label <$> node_at q (document s1))
         ∧ ((∀ c e, element_at c (document s1) = Some e →
                    ¬ with_id ("due-" +:+ id) e) →
            document s2 = document s1))
    ∧ (∀ s1 status,
         (∀ q, textContent <$> node_at q (document (respond_error r status s1))
               = textContent <$> node_at q (document s1))
         ∧ (∀ q e, element_at q (document s1) = Some e →
                   ¬ of_class "modal" e →
                   element_at q (document (respond_error r status s1))
                   = Some e)
         ∧ requests (respond_error r status s1) = requests s1).
Proof.
  intros Hdue Hid Hplain Htok. rewrite newTime_issues, Htok, Hdue, Hid.
  eexists. split; [done|]. split_and!; try done.
  - intros s1 payload. cbn [respond_success success update_request].
    rewrite newTime_done_plain by done. eexists. split; [done|].
    split_and!; try done; cbn [document set_document].
    + intros c Hc%getElementById_first. rewrite Hc. cbn [from_option].
      apply head_Some_elem_of, elem_of_select in Hc as (e & He & _).
      unfold element_at in He.
      destruct (node_at c (document s1)) as [[t|e' cs]|] eqn:Hn;
        [done| |done].
      injection He as ->. rewrite node_at_alter_at, Hn. split_and!.
      * by exists e, cs.
      * change (Some (textContent (Elem e (text_nodes v))) = Some v).
        by rewrite textContent_text_nodes.
      * intros q Hq. by apply label_alter_at.
    + intros Hnone.
      destruct (getElementById ("due-" +:+ id) (document s1)) as [c|] eqn:Hc;
        [|done].
      apply getElementById_first in Hc as [(e & He & Hid') _].
      by destruct (Hnone c e).
  - intros s1 status. unfold respond_error.
    destruct (error_document status s1) as [Htext Helem].
    split_and!; [done..|]. unfold error.
    by destruct (isPageBeingRefreshed s1).
Qed.



(** ** The search filter *)

(** One run of the keyup handler, for a literal query. *)
Lemma search_keyup_literal p doc e :
  element_at p doc = Some e →
  literal_pattern (value (mk e)) = true →
  search_keyup p doc = Normal (filtered (test_literal (value (mk e))) doc).
Proof.
  intros He Hlit. unfold search_keyup, jq_val, RegExp_i. rewrite He.
  cbn [to_string]. by rewrite Hlit.
Qed.

Lemma mk_filter_row_but_displayed regex e cs :
  value (mk (filter_row regex e cs)) = value (mk e)
  ∧ classes (mk (filter_row regex e cs)) = classes (mk e)
  ∧ keyup (filter_row regex e cs) = keyup e.
Proof. rewrite filter_row_spec. done. Qed.


(** What the filter leaves at a path. *)
Lemma element_at_filtered regex p doc :
  element_at p (filtered regex doc) =
  match node_at p doc with
  | Some (Elem e cs) =>
      Some (if has_class "item" e
            then set_displayed (regex (row_text (Elem e cs))) e else e)
  | _ => None
  end.
Proof.
  unfold filtered. rewrite element_at_jq_each.
  destruct (node_at p doc) as [[t|e cs]|]; [done| |done].
  unfold rewritten. cbn [matches]. by rewrite filter_row_spec.
Qed.

Lemma row_text_mapped sel f e e' cs :
  (∀ sel' a l, matches sel' (f a l) = matches sel' a) →
  row_text (Elem e' (jq_each sel f <$> cs)) = row_text (Elem e cs).
Proof. intros Hm. by rewrite <- (row_text_jq_each sel f (Elem e cs) Hm). Qed.

(** Running the filter again changes nothing. *)
Lemma filtered_idemp regex : ∀ n,
  filtered regex (filtered regex n) = filtered regex n.
Proof.
  unfold filtered.
  induction n as [s|e cs IH] using node_ind_children; [done|].
  cbn [jq_each]. f_equal.
  - cbn [matches]. destruct (has_class "item" e) eqn:Hitem.
    + rewrite (filter_row_spec regex e cs).
      change (has_class "item" (set_displayed ?b e)) with (has_class "item" e).
      rewrite Hitem, filter_row_spec.
      rewrite (row_text_mapped _ _ e)
        by (intros; rewrite filter_row_spec; apply matches_set_displayed).
      done.
    + by rewrite Hitem.
  - rewrite <- list_fmap_compose. by apply Forall_fmap_ext.
Qed.

Lemma filtered_keeps_but_displayed regex q doc :
  (λ e, (value (mk e), keyup e)) <$> element_at q (filtered regex doc)
  = (λ e, (value (mk e), keyup e)) <$> element_at q doc.
Proof.
  rewrite element_at_filtered. unfold element_at.
  destruct (node_at q doc) as [[t|e cs]|]; [done| |done].
  by destruct (has_class "item" e).
Qed.

(** However many copies of the listener are bound, they leave what one
    run of the filter leaves. *)
Lemma run_handlers_once p hs : ∀ doc e,
  element_at p doc = Some e → literal_pattern (value (mk e)) = true →
  hs ≠ [] →
  run_handlers hs p doc = filtered (test_literal (value (mk e))) doc.
Proof.
  induction hs as [|[] hs IH]; intros doc e He Hlit Hhs; [done|].
  cbn [run_handlers run_handler].
  rewrite (search_keyup_literal p doc e) by done.
  destruct hs as [|h hs]; [done|].
  pose proof (filtered_keeps_but_displayed
                (test_literal (value (mk e))) p doc) as Hp.
  rewrite He in Hp.
  destruct (element_at p (filtered _ doc)) as [e1|] eqn:He1; [|done].
  injection Hp as Hv _.
  rewrite (IH (filtered (test_literal (value (mk e))) doc) e1)
    by (done || by rewrite Hv).
  by rewrite Hv, filtered_idemp.
Qed.

Lemma propagation_spec p :
  ∃ above, propagation p = p :: above
           ∧ ∀ q, q ∈ above → q `prefix_of` p ∧ q ≠ p.
Proof.
  induction p as [|i p (above & Hp & Habove)].
  - exists []. split; [done|]. by intros q ?%elem_of_nil.
  - exists (((i ::.) <$> above) ++ [[]]). cbn. rewrite Hp. split; [done|].
    intros q [Hq|Hq]%elem_of_app.
    + apply list_elem_of_fmap in Hq as (r & -> & Hr).
      destruct (Habove r Hr) as [Hpre Hne].
      split; [by apply prefix_cons|congruence].
    + apply list_elem_of_singleton in Hq as ->.
      split; [apply prefix_nil|done].
Qed.

(** Elements without a listener let the event pass. *)
Lemma dispatch_silent reached doc :
  (∀ q a, q ∈ reached → element_at q doc = Some a → keyup a = []) →
  dispatch reached doc = doc.
Proof.
  induction reached as [|q reached IH]; intros Hsilent; [done|]. cbn.
  destruct (element_at q doc) as [a|] eqn:Ha.
  - rewrite (Hsilent q a) by (done || left). cbn. apply IH.
    intros q' a' Hq'. apply Hsilent. by right.
  - apply IH. intros q' a' Hq'. apply Hsilent. by right.
Qed.

(** A keystroke in an element with the listener, below elements without
    one, runs the filter for the value of the element. *)
Lemma keyup_event_filters s p e :
  element_at p (document s) = Some e →
  keyup e ≠ [] →
  (∀ q a, q `prefix_of` p → q ≠ p → element_at q (document s) = Some a →
          keyup a = []) →
  literal_pattern (value (mk e)) = true →
  keyup_event p s
  = set_document (filtered (test_literal (value (mk e))) (document s)) s.
Proof.
  intros He Hbound Habove Hlit. unfold keyup_event. rewrite He. f_equal.
  destruct (propagation_spec p) as (above & -> & Hreached).
  cbn [dispatch]. rewrite He.
  rewrite (run_handlers_once p (keyup e) (document s) e) by done.
  apply dispatch_silent. intros q a [Hpre Hne]%Hreached Ha.
  pose proof (filtered_keeps_but_displayed
                (test_literal (value (mk e))) q (document s)) as Hq.
  rewrite Ha in Hq.
  destruct (element_at q (document s)) as [a0|] eqn:Ha0; [|done].
  injection Hq as _ ->. by eapply Habove.
Qed.

(** *** The bindings of a page the script has loaded *)

Lemma every_element_impl (P Q : element → Prop) doc :
  (∀ e, P e → Q e) → every_element P doc → every_element Q doc.
Proof. intros HPQ H q e He. by eapply HPQ, H. Qed.

Lemma every_element_jq_each P sel f n :
  (∀ e cs, P e → P (f e cs)) →
  every_element P n → every_element P (jq_each sel f n).
Proof.
  intros Hf Hn q e. rewrite element_at_jq_each.
  destruct (node_at q n) as [[t|e0 cs]|] eqn:Hq; [done| |done].
  intros [= <-]. unfold rewritten.
  assert (P e0) by (apply (Hn q); unfold element_at; by rewrite Hq).
  destruct (matches sel e0); [by apply Hf|done].
Qed.

Lemma node_at_app p : ∀ k n, node_at (p ++ k) n = node_at p n ≫= node_at k.
Proof.
  induction p as [|i p IH]; intros k n; [done|].
  destruct n as [t|e cs]; [done|]. cbn.
  destruct (cs !! i) as [c|]; cbn; [apply IH|done].
Qed.

Lemma every_element_set_children P X p n :
  every_element P n → (∀ x, x ∈ X → every_element P x) →
  every_element P (alter_at (set_children X) p n).
Proof.
  intros Hn HX q e He.
  destruct (decide (p `prefix_of` q)) as [[k ->]|Hpq].
  - unfold element_at in He. rewrite node_at_app, node_at_alter_at in He.
    destruct (node_at p n) as [[t|e0 cs]|] eqn:Hp; cbn in He; [|..|done].
    + by destruct k.
    + destruct k as [|i k]; cbn in He.
      * injection He as <-. apply (Hn p). unfold element_at. by rewrite Hp.
      * destruct (X !! i) as [x|] eqn:Hx; cbn in He; [|done].
        by apply (HX x (list_elem_of_lookup_2 _ _ _ Hx) k).
  - pose proof (label_alter_at (set_children X) p q n Hpq) as Hl.
    unfold element_at in He. apply (Hn q). unfold element_at.
    destruct (node_at q (alter_at _ p n)) as [[t|e1 cs1]|]; [done| |done].
    injection He as ->.
    destruct (node_at q n) as [[t|e2 cs2]|]; cbn in Hl; by simplify_eq.
Qed.

(** Writing text leaves the elements that stay as they are. *)
Lemma every_element_set_text P v paths : ∀ n,
  every_element P n → every_element P (jq_set_text v paths n).
Proof.
  assert (∀ X, (∀ x, x ∈ X → every_element P x) → ∀ n,
            every_element P n →
            every_element P
              (foldl (λ d p, alter_at (set_children X) p d) n paths)) as H.
  { intros X HX. induction paths as [|p paths IH]; intros n Hn; [done|].
    cbn. by apply IH, every_element_set_children. }
  intros n Hn. destruct v as [| |t]; cbn; [done|..]; apply H; try done.
  - by intros x ?%elem_of_nil.
  - unfold text_nodes. destruct (String.eqb t ""); intros x Hx.
    + by apply elem_of_nil in Hx.
    + apply list_elem_of_singleton in Hx as ->. by intros [|??] ?.
Qed.

(** Parsed markup has nothing attached. *)
Lemma element_at_parse q : ∀ h e,
  element_at q (parse h) = Some e → e = fresh (mk e).
Proof.
  unfold element_at.
  induction q as [|i q IH]; intros [t|m cs] e; cbn; try done.
  - by intros [= <-].
  - rewrite list_lookup_fmap. destruct (cs !! i) as [h|]; cbn; [|done].
    apply IH.
Qed.

Lemma every_element_parse h : every_element unbound (parse h).
Proof. intros q e He. by rewrite (element_at_parse _ _ _ He). Qed.

Lemma of_class_initiated c e : of_class c (initiated e) ↔ of_class c e.
Proof. done. Qed.

(** The initializer binds what is unbound and keeps what is bound. *)
Lemma initiated_bound e :
  bound_as_classed e ∨ unbound e → bound_as_classed (initiated e).
Proof.
  intros H. unfold bound_as_classed, unbound in *.
  rewrite !of_class_initiated. unfold initiated. cbn [keyup popover].
  rewrite <- !has_class_of_class in *.
  destruct (has_class "search" e); destruct (has_class "add-popover" e);
    split_and!; try done; try (by intros _ [_ ?]%app_eq_nil);
    destruct H as [(? & ? & ? & ?)|[? ?]]; auto; congruence.
Qed.

Lemma well_bound_initiate s :
  every_element (λ e, bound_as_classed e ∨ unbound e) (document s) →
  well_bound (document (initiate s)).
Proof.
  intros Hs q e. rewrite element_at_initiate.
  destruct (element_at q (document s)) as [e0|] eqn:He0; [|done].
  intros [= <-]. apply initiated_bound. by apply (Hs q).
Qed.

Lemma well_bound_refresh_success data s :
  well_bound (document s) → well_bound (document (refresh_success data s)).
Proof.
  intros Hs. unfold refresh_success. apply well_bound_initiate.
  change (document (set_document ?d _)) with d.
  assert (every_element (λ e, bound_as_classed e ∨ unbound e) (document s))
    as Hs' by (eapply every_element_impl; [|done]; by left).
  destruct (getElementById "list" (document s)) as [c|]; [|done].
  apply every_element_set_children; [done|].
  intros x (h & -> & _)%list_elem_of_fmap.
  eapply every_element_impl; [|apply every_element_parse]. by right.
Qed.

Lemma well_bound_run_handlers hs this : ∀ doc,
  well_bound doc → well_bound (run_handlers hs this doc).
Proof.
  induction hs as [|[] hs IH]; intros doc Hdoc; [done|].
  cbn [run_handlers run_handler]. unfold search_keyup.
  destruct (RegExp_i _) as [regex|]; [|done]. apply IH.
  apply every_element_jq_each; [|done]. intros e cs He. unfold filter_row.
  by destruct (regex _).
Qed.

Lemma well_bound_dispatch reached : ∀ doc,
  well_bound doc → well_bound (dispatch reached doc).
Proof.
  induction reached as [|this rest IH]; intros doc Hdoc; [done|].
  cbn [dispatch]. destruct (element_at this doc) as [e|]; apply IH; [|done].
  by apply well_bound_run_handlers.
Qed.

Lemma document_scheduleRefresh s :
  document (state_of (scheduleRefresh s)) = document s.
Proof.
  destruct (held_back_or_not (document s)) as [H|H].
  - by rewrite scheduleRefresh_skips.
  - rewrite scheduleRefresh_fetches by done. by destruct (getCookie _ _).
Qed.

Lemma well_bound_step ev s :
  well_bound (document s) → well_bound (document (step ev s)).
Proof.
  intros Hs. destruct ev as [|r payload|r status|p|]; cbn [step].
  - unfold timer_fires. destruct (timers s) as [|[[] delay] rest]; [done|].
    cbn [timer_task]. by rewrite document_scheduleRefresh.
  - case_decide; [|done]. unfold respond_success.
    destruct (success r) as [|id due].
    + by apply well_bound_refresh_success.
    + unfold newTime_done. destruct (jq_id _ _) as [paths|]; [|done].
      by apply every_element_set_text.
  - case_decide; [|done]. unfold respond_error, error.
    destruct (isPageBeingRefreshed s); [done|]. cbn [negb].
    change (document (set_document ?d _)) with d.
    by apply every_element_jq_each.
  - unfold keyup_event. destruct (element_at p (document s)); [|done].
    by apply well_bound_dispatch.
  - done.
Qed.

(** From the load of a page on, the bindings follow the classes. *)
Lemma well_bound_run evs : ∀ s,
  well_bound (document s) → well_bound (document (run evs s)).
Proof.
  induction evs as [|ev evs IH]; intros s Hs; [done|].
  cbn [run]. by apply IH, well_bound_step.
Qed.

Lemma well_bound_main h c : well_bound (document (state_of (main (parse h) c))).
Proof.
  unfold main. rewrite document_scheduleRefresh. apply well_bound_initiate.
  eapply every_element_impl; [|apply every_element_parse]. by right.
Qed.



(** ** The request interceptor *)

(** The two prefixes [beforeSend] tests for are schemes. *)
Lemma tested_prefix_is_scheme u :
  test_http u || test_https u = true → is_absolute u = true.
Proof.
  unfold test_http, test_https. intros [H|H]%orb_true_iff.
  - apply prefix_correct in H.
    destruct u as [|c1 [|c2 [|c3 [|c4 [|c5 u]]]]]; cbn in H; try done.
    by simplify_eq.
  - apply prefix_correct in H.
    destruct u as [|c1 [|c2 [|c3 [|c4 [|c5 [|c6 u]]]]]]; cbn in H; try done.
    by simplify_eq.
Qed.

Lemma tested_prefix_spec u :
  test_http u || test_https u = true
  ↔ starts_with "http:" u ∨ starts_with "https:" u.
Proof.
  unfold test_http, test_https.
  by rewrite orb_true_iff, !prefix_starts_with.
Qed.

(** A string without [%] is its own decoding. *)
Lemma has_escape_spec v :
  has_escape v = true ↔ ∃ a b, v = a +:+ String "%" b.
Proof.
  unfold has_escape. rewrite negb_true_iff.
  induction v as [|c v IH]; cbn.
  - split; [done|]. by intros ([|??] & b & ?).
  - destruct (Ascii.eqb_spec c "%") as [->|Hc]; cbn.
    + split; [|done]. intros _. by exists "", v.
    + rewrite IH. split.
      * intros (a & b & ->). by exists (String c a), b.
      * intros ([|c' a] & b & H); cbn in H; simplify_eq. by exists a, b.
Qed.

Lemma decoded_plain v :
  (∀ a b, v ≠ a +:+ String "%" b) →
  decoded (Some v) = Normal (JString v).
Proof.
  intros Hv. unfold decoded, decodeURIComponent.
  destruct (has_escape v) eqn:He; [|done].
  apply has_escape_spec in He as (a & b & ->). by destruct (Hv a b).
Qed.

(** C5, as the code has it.  A request whose URL starts with [http:] or
    [https:] is left without the X-CSRFToken header.  On any other
    request, and so on every request whose URL is not absolute,
    [beforeSend] reads the first [csrftoken] cookie: the header is
    attached with the decoded value of the cookie, which is the value
    itself when it holds no [%], or with [null] when there is no such
    cookie; when the decoder throws, [beforeSend] throws and attaches
    nothing. *)
Theorem csrf_header_by_url_prefix (jar : list (string * string))
    (xhr : request) :
  well_formed_jar jar = true →
  (starts_with "http:" (url xhr) ∨ starts_with "https:" (url xhr) →
   beforeSend (document_cookie jar) xhr = Normal xhr)
  ∧ (¬ starts_with "http:" (url xhr) → ¬ starts_with "https:" (url xhr) →
     beforeSend (document_cookie jar) xhr
     = match decoded (cookie_value "csrftoken" jar) with
       | Normal v => Normal (setRequestHeader "X-CSRFToken" v xhr)
       | Throw e => Throw e
       end)
  ∧ (is_absolute (url xhr) = false →
     ¬ starts_with "http:" (url xhr) ∧ ¬ starts_with "https:" (url xhr))
  ∧ (∀ v, cookie_value "csrftoken" jar = Some v →
          (∀ a b, v ≠ a +:+ String "%" b) →
          decoded (cookie_value "csrftoken" jar) = Normal (JString v)).
Proof.
  intros Hjar. split_and!.
  - intros H%tested_prefix_spec. unfold beforeSend. by rewrite H.
  - intros H1 H2. unfold beforeSend.
    destruct (test_http (url xhr) || test_https (url xhr)) eqn:Htest.
    + apply tested_prefix_spec in Htest. tauto.
    + cbn [negb]. by rewrite getCookie_document_cookie.
  - intros Hrel.
    destruct (test_http (url xhr) || test_https (url xhr)) eqn:Htest.
    + apply tested_prefix_is_scheme in Htest. congruence.
    + rewrite <- not_true_iff_false, tested_prefix_spec in Htest. tauto.
  - intros v -> Hv. by apply decoded_plain.
Qed.

(** C9. A request to a URL that is not absolute, issued while no
    [csrftoken] cookie exists, still gets the X-CSRFToken header; the
    value it carries is [null], which is not the empty string and reads
    [null] as a string. *)
Theorem csrf_header_without_cookie (jar : list (string * string))
    (xhr : request) :
  well_formed_jar jar = true →
  cookie_value "csrftoken" jar = None →
  is_absolute (url xhr) = false →
  beforeSend (document_cookie jar) xhr
  = Normal (setRequestHeader "X-CSRFToken" JNull xhr)
  ∧ requestHeaders (setRequestHeader "X-CSRFToken" JNull xhr)
    = requestHeaders xhr ++ [("X-CSRFToken", JNull)]
  ∧ JNull ≠ JString ""
  ∧ to_string JNull = "null".
Proof.
  intros Hjar Hnone Hrel. split_and!; [|done..]. unfold beforeSend.
  destruct (test_http (url xhr) || test_https (url xhr)) eqn:Htest.
  - apply tested_prefix_is_scheme in Htest. congruence.
  - cbn [negb]. by rewrite getCookie_document_cookie, Hnone.
Qed.

(** * Further properties of the script *)

(** ** [getCookie] and the shape of the cookie string *)

Lemma trim_left_spaces l s :
  all_chars is_space l = true → trim_left (l +:+ s) = trim_left s.
Proof.
  induction l as [|c l IH]; cbn; [done|].
  intros [Hc Hl]%andb_true_iff. rewrite Hc. by apply IH.
Qed.

Lemma trim_right_spaces r : all_chars is_space r = true → trim_right r = "".
Proof.
  induction r as [|c r IH]; cbn; [done|].
  intros [Hc Hr]%andb_true_iff. by rewrite IH, Hc.
Qed.

Lemma trim_right_padding s r :
  all_chars (λ c, negb (is_space c)) s = true →
  all_chars is_space r = true →
  trim_right (s +:+ r) = s.
Proof.
  intros Hs Hr. induction s as [|c s IH]; cbn; [by apply trim_right_spaces|].
  cbn in Hs. apply andb_true_iff in Hs as [Hc Hs].
  apply negb_true_iff in Hc. rewrite IH, Hc by done. by destruct s.
Qed.

Lemma trim_left_no_space s :
  all_chars (λ c, negb (is_space c)) s = true → trim_left s = s.
Proof.
  destruct s as [|c s]; cbn; [done|].
  intros [Hc _]%andb_true_iff. apply negb_true_iff in Hc. by rewrite Hc.
Qed.

(** [trim] takes the padding off a pair. *)
Lemma trim_padded_pair c :
  well_padded c = true → trim (padded_pair c) = cookie_pair (the_cookie c).
Proof.
  unfold well_padded, padded_pair, trim.
  intros [[Hb Ha]%andb_true_iff Hc]%andb_true_iff.
  rewrite trim_left_spaces by done.
  assert (all_chars (λ a, negb (is_space a)) (cookie_pair (the_cookie c)) = true)
    as Hpair by by apply pair_no_space.
  destruct (cookie_pair (the_cookie c)) as [|a pair] eqn:Heq; [|].
  { destruct (the_cookie c) as [n v]. by destruct n. }
  cbn in Hpair. apply andb_true_iff in Hpair as [Ha' Hpair].
  apply negb_true_iff in Ha' as Ha''. cbn [append trim_left]. rewrite Ha''.
  apply (trim_right_padding (String a pair)); [|done]. cbn.
  by rewrite Ha', Hpair.
Qed.

Lemma spaces_no_semicolon s :
  all_chars is_space s = true →
  all_chars (λ a, negb (Ascii.eqb a ";")) s = true.
Proof.
  apply all_chars_impl. intros a Ha.
  destruct (Ascii.eqb_spec a ";") as [->|]; [done|done].
Qed.

Lemma padded_pair_no_semicolon c :
  well_padded c = true →
  all_chars (λ a, negb (Ascii.eqb a ";")) (padded_pair c) = true.
Proof.
  unfold well_padded, padded_pair.
  intros [[Hb Ha]%andb_true_iff Hc]%andb_true_iff.
  rewrite !all_chars_append, (spaces_no_semicolon (pad_before c)),
    (spaces_no_semicolon (pad_after c)), pair_no_semicolon by done.
  done.
Qed.

Lemma padded_pair_not_empty c : padded_pair c ≠ "".
Proof.
  unfold padded_pair, cookie_pair. destruct (pad_before c); [|done].
  by destruct (the_cookie c).1.
Qed.

Lemma split_cookie_string c cs :
  forallb well_padded (c :: cs) = true →
  split ";" (cookie_string (c :: cs)) = padded_pair <$> (c :: cs).
Proof.
  revert c. induction cs as [|c' cs IH]; intros c H.
  - cbn in H. rewrite andb_true_r in H.
    by apply split_no_sep, padded_pair_no_semicolon.
  - assert (well_padded c = true ∧ forallb well_padded (c' :: cs) = true)
      as [Hc Hcs] by by apply andb_true_iff.
    change (cookie_string (c :: c' :: cs))
      with (padded_pair c +:+ String ";" (cookie_string (c' :: cs))).
    rewrite split_append_sep by by apply padded_pair_no_semicolon.
    by rewrite IH.
Qed.

(** X1. [getCookie] reads a cookie whatever white space surrounds the pairs
    of the cookie string, for names and values that hold no white space
    and no semicolon (names no equals sign either): it answers the decoded
    value of the first cookie of the name, throws when the decoder throws
    on that value, and answers [null] when there is no such cookie, in
    particular on the empty cookie string. *)
Theorem getCookie_reads_first_cookie (cs : list padded_cookie)
    (name : string) :
  all_chars name_char name = true →
  forallb well_padded cs = true →
  getCookie (cookie_string cs) name
  = decoded (cookie_value name (the_cookie <$> cs)).
Proof.
  intros Hname Hcs. destruct cs as [|c cs]; [done|]. unfold getCookie.
  destruct (String.eqb_spec (cookie_string (c :: cs)) "") as [H|_].
  { exfalso. revert H. unfold cookie_string. cbn.
    pose proof (padded_pair_not_empty c).
    destruct cs; [done|]. by destruct (padded_pair c). }
  cbn [negb]. rewrite split_cookie_string by done.
  rewrite forallb_forall in Hcs.
  apply getCookie_loop_pairs; [done| |].
  - apply forallb_forall. intros p (c' & <- & Hc')%in_map_iff.
    specialize (Hcs c' Hc'). unfold well_padded in Hcs.
    by apply andb_true_iff in Hcs as [_ ?].
  - apply Forall2_fmap, Forall_Forall2_diag, Forall_forall.
    intros c' Hc'. apply trim_padded_pair, Hcs. by apply list_elem_of_In.
Qed.


(** ** The requests of a run *)

Lemma requests_step ev s :
  requests (step ev s) = requests s
  ∨ (ev = Timeout
     ∧ ∃ tok, getCookie (cookie s) "csrftoken" = Normal tok
              ∧ requests (step ev s)
                = requests s ++ [table_request [("X-CSRFToken", tok)]]).
Proof.
  destruct ev as [|r payload|r status|p|]; cbn [step].
  - unfold timer_fires. destruct (timers s) as [|[[] delay] rest]; [by left|].
    cbn [timer_task].
    destruct (held_back_or_not (document (set_timers rest s))) as [H|H].
    + left. by rewrite scheduleRefresh_skips.
    + rewrite scheduleRefresh_fetches by done.
      change (cookie (set_timers rest s)) with (cookie s).
      destruct (getCookie (cookie s) "csrftoken") as [tok|e] eqn:Htok;
        [right|by left].
      split; [done|]. by exists tok.
  - left. case_decide; [|done]. unfold respond_success, newTime_done.
    destruct (success r) as [|id due]; [done|]. by destruct (jq_id _ _).
  - left. case_decide; [|done]. unfold respond_error, error.
    by destruct (isPageBeingRefreshed s).
  - left. unfold keyup_event. by destruct (element_at p (document s)).
  - by left.
Qed.


(** X3. Nothing but a tick issues a request, and a tick at most the one
    GET of the table: the completion of a request, failed or successful,
    a keystroke and the leaving of the page add none, so a failed request
    is never retried. *)
Theorem only_ticks_issue_requests (ev : event) (s : state) :
  match ev with
  | Timeout =>
      requests (step ev s) = requests s
      ∨ ∃ headers, requests (step ev s) = requests s ++ [table_request headers]
  | _ => requests (step ev s) = requests s
  end.
Proof.
  destruct (requests_step ev s) as [H|(-> & tok & _ & H)].
  - destruct ev; by (done || left).
  - right. by eexists.
Qed.

(** ** Failures over a run *)

Lemma notifications_step ev s :
  notifications (step ev s)
  = notifications s
    ++ match ev with
       | Failed r status =>
           if bool_decide (r ∈ requests s) && negb (isPageBeingRefreshed s)
           then [failure_notification status] else []
       | _ => []
       end.
Proof.
  rewrite <- (app_nil_r (notifications (step ev s))).
  destruct ev as [|r payload|r status|p|]; cbn [step]; rewrite ?app_nil_r.
  - unfold timer_fires. destruct (timers s) as [|[[] delay] rest]; [done|].
    cbn [timer_task].
    destruct (held_back_or_not (document (set_timers rest s))) as [H|H].
    + by rewrite scheduleRefresh_skips.
    + rewrite scheduleRefresh_fetches by done. by destruct (getCookie _ _).
  - case_decide; [|done]. unfold respond_success, newTime_done.
    destruct (success r) as [|id due]; [done|]. by destruct (jq_id _ _).
  - case_bool_decide; case_decide; try done; cbn [andb]; [|by rewrite app_nil_r].
    unfold respond_error, error.
    destruct (isPageBeingRefreshed s); cbn; [by rewrite app_nil_r|].
    unfold failure_notification. do 3 f_equal.
    destruct (Nat.eqb_spec status 404); by case_decide.
  - unfold keyup_event. by destruct (element_at p (document s)).
  - done.
Qed.

Lemma flag_step ev s :
  isPageBeingRefreshed (step ev s)
  = match ev with
    | BeforeUnload => true
    | _ => isPageBeingRefreshed s
    end.
Proof.
  destruct ev as [|r payload|r status|p|]; cbn [step]; [| | | |done].
  - unfold timer_fires. destruct (timers s) as [|[[] delay] rest]; [done|].
    cbn [timer_task].
    destruct (held_back_or_not (document (set_timers rest s))) as [H|H].
    + by rewrite scheduleRefresh_skips.
    + rewrite scheduleRefresh_fetches by done. by destruct (getCookie _ _).
  - case_decide; [|done]. unfold respond_success, newTime_done.
    destruct (success r) as [|id due]; [done|]. by destruct (jq_id _ _).
  - case_decide; [|done]. unfold respond_error, error.
    by destruct (isPageBeingRefreshed s) eqn:Hflag.
  - unfold keyup_event. by destruct (element_at p (document s)).
Qed.

(** Once the page is being left, nothing is shown any more. *)
Lemma run_after_unload evs : ∀ s,
  isPageBeingRefreshed s = true →
  isPageBeingRefreshed (run evs s) = true
  ∧ notifications (run evs s) = notifications s.
Proof.
  induction evs as [|ev evs IH]; intros s Hs; [done|]. cbn [run].
  destruct (IH (step ev s)) as [Hflag Hnote].
  { rewrite flag_step. by destruct ev. }
  split; [done|]. rewrite Hnote, notifications_step, Hs.
  destruct ev; rewrite ?andb_false_r; apply app_nil_r.
Qed.

(** X4. The unload flag is never reset, and the notifications tell the
    failures exactly: once the page is being left, no event shows a
    notification any more; until then, the notifications shown are one per
    failed request, in the order of the failures, and nothing else. *)
Theorem notifications_tell_the_failures (evs : list event) (s : state) :
  if isPageBeingRefreshed s
  then isPageBeingRefreshed (run evs s) = true
       ∧ notifications (run evs s) = notifications s
  else notifications (run evs s)
       = notifications s ++ (failure_notification <$> reported evs s).
Proof.
  destruct (isPageBeingRefreshed s) eqn:Hs; [by apply run_after_unload|].
  revert s Hs. induction evs as [|ev evs IH]; intros s Hs.
  { cbn. by rewrite app_nil_r. }
  cbn [run reported].
  destruct ev as [|r payload|r status|p|];
    try (rewrite IH by (by rewrite flag_step);
         by rewrite notifications_step, app_nil_r).
  - rewrite IH by (by rewrite flag_step).
    rewrite notifications_step, Hs, andb_true_r.
    case_bool_decide; [|by rewrite app_nil_r].
    by rewrite <- app_assoc.
  - destruct (run_after_unload evs (step BeforeUnload s) eq_refl) as [_ ->].
    cbn. by rewrite app_nil_r.
Qed.

(** ** More on the search filter *)

Lemma jq_each_ext sel f g :
  (∀ e cs, f e cs = g e cs) → ∀ n, jq_each sel f n = jq_each sel g n.
Proof.
  intros Hfg. induction n as [s|e cs IH] using node_ind_children; [done|].
  cbn. rewrite Hfg. f_equal. by apply Forall_fmap_ext.
Qed.

Lemma fold_case_app s t : fold_case (s +:+ t) = fold_case s +:+ fold_case t.
Proof. induction s as [|c s IH]; cbn; [done|by rewrite IH]. Qed.

Lemma fold_case_app_inv u v : ∀ m,
  fold_case m = fold_case (u +:+ v) →
  ∃ mu mv, m = mu +:+ mv ∧ fold_case mu = fold_case u
           ∧ fold_case mv = fold_case v.
Proof.
  induction u as [|c u IH]; intros m; cbn.
  - intros Hm. by exists "", m.
  - destruct m as [|c' m]; cbn; [done|]. intros [= Hc Hm].
    destruct (IH m Hm) as (mu & mv & -> & Hu & Hv).
    exists (String c' mu), mv. cbn. by rewrite Hc, Hu.
Qed.

(** Containment up to case sees neither the case of the query nor that
    of the text. *)
Lemma contains_ignoring_case_fold q q' t t' :
  fold_case q = fold_case q' → fold_case t = fold_case t' →
  contains_ignoring_case q t → contains_ignoring_case q' t'.
Proof.
  intros Hq Ht (a & m & b & -> & Hm). symmetry in Ht.
  apply fold_case_app_inv in Ht as (a' & mb' & -> & Ha & Hmb).
  apply fold_case_app_inv in Hmb as (m' & b' & -> & Hm' & Hb).
  exists a', m', b'. split; [done|]. congruence.
Qed.

Lemma test_literal_fold q q' t t' :
  fold_case q = fold_case q' → fold_case t = fold_case t' →
  test_literal q t = test_literal q' t'.
Proof.
  intros Hq Ht. apply eq_true_iff_eq. rewrite !test_literal_spec.
  split; by apply contains_ignoring_case_fold.
Qed.

(** A query contains its parts. *)
Lemma contains_ignoring_case_part a q b t :
  contains_ignoring_case (a +:+ q +:+ b) t → contains_ignoring_case q t.
Proof.
  intros (u & m & w & -> & Hm).
  apply fold_case_app_inv in Hm as (ma & mqb & -> & Ha & Hqb).
  apply fold_case_app_inv in Hqb as (mq & mb & -> & Hq & Hb).
  exists (u +:+ ma), mq, (mb +:+ w). split; [|done].
  by rewrite !append_assoc.
Qed.

Lemma RegExp_i_literal q regex :
  literal_pattern q = true → RegExp_i q = Normal regex →
  regex = test_literal q.
Proof. unfold RegExp_i. intros ->. by intros [= <-]. Qed.


(** X5. For queries without pattern syntax, the filter sees neither the
    case of the query nor that of the texts: two queries that differ only in case leave the same page, and
    two rows whose texts differ only in case are shown or hidden alike. *)
Theorem filter_ignores_case (q q' : string) (regex regex' : string → bool)
    (doc : node) :
  literal_pattern q = true → literal_pattern q' = true →
  RegExp_i q = Normal regex → RegExp_i q' = Normal regex' →
  fold_case q = fold_case q' →
  filtered regex doc = filtered regex' doc
  ∧ ∀ e cs e' cs',
      fold_case (row_text (Elem e cs)) = fold_case (row_text (Elem e' cs')) →
      displayed (mk (filter_row regex e cs))
      = displayed (mk (filter_row regex' e' cs')).
Proof.
  intros Hl Hl' ->%RegExp_i_literal ->%RegExp_i_literal Hq; [|done..]. split.
  - apply jq_each_ext. intros e cs. rewrite !filter_row_spec.
    by rewrite (test_literal_fold q q' _ (row_text (Elem e cs))).
  - intros e cs e' cs' Ht. rewrite !filter_row_spec. cbn.
    by apply test_literal_fold.
Qed.

(** X6. Typing more never brings a row back: a row that is shown for a
    query without pattern syntax with characters added before or after it
    is shown for the query itself. *)
Theorem longer_query_shows_fewer_rows (a q b : string)
    (regex regex' : string → bool) (doc : node) (p : path) (e' : element) :
  literal_pattern q = true → literal_pattern (a +:+ q +:+ b) = true →
  RegExp_i q = Normal regex → RegExp_i (a +:+ q +:+ b) = Normal regex' →
  element_at p (filtered regex' doc) = Some e' →
  has_class "item" e' = true → displayed (mk e') = true →
  ∃ e, element_at p (filtered regex doc) = Some e
       ∧ displayed (mk e) = true.
Proof.
  intros Hl Hl' ->%RegExp_i_literal ->%RegExp_i_literal; [|done..].
  rewrite !element_at_filtered.
  destruct (node_at p doc) as [[t|e0 cs]|]; [done| |done].
  intros [= <-]. destruct (has_class "item" e0) eqn:Hitem.
  - intros _ Hshown. eexists. split; [done|]. cbn in *.
    apply test_literal_spec in Hshown. apply test_literal_spec.
    by eapply contains_ignoring_case_part.
  - intros Hitem'. congruence.
Qed.

(** X7. A keystroke in the search field, with the listener bound once
    or many times, no listener on an element around the field and a query
    without pattern syntax, leaves exactly what one run of the filter
    leaves; and the filter changes nothing but the display state of the
    [.item] rows: texts, other elements and the shape of the document stay
    as they are. *)
Theorem keystroke_runs_the_filter_once (s : state) (p : path) (e : element)
    (regex : string → bool) :
  element_at p (document s) = Some e →
  keyup e ≠ [] →
  (∀ q a, q `prefix_of` p → q ≠ p → element_at q (document s) = Some a →
          keyup a = []) →
  literal_pattern (value (mk e)) = true →
  RegExp_i (value (mk e)) = Normal regex →
  keyup_event p s = set_document (filtered regex (document s)) s
  ∧ ∀ q,
      match node_at q (document s) with
      | None => node_at q (filtered regex (document s)) = None
      | Some (Text t) =>
          node_at q (filtered regex (document s)) = Some (Text t)
      | Some (Elem a cs) =>
          ∃ a', element_at q (filtered regex (document s)) = Some a'
                ∧ set_displayed true a' = set_displayed true a
                ∧ (has_class "item" a = false → a' = a)
      end.
Proof.
  intros He Hbound Habove Hlit ->%RegExp_i_literal; [|done]. split.
  - by apply keyup_event_filters.
  - intros q.
    pose proof (element_at_filtered (test_literal (value (mk e))) q
                  (document s)) as Hq.
    unfold filtered in *. rewrite node_at_jq_each.
    destruct (node_at q (document s)) as [[t|a cs]|]; [done| |done].
    eexists. split; [done|]. by destruct (has_class "item" a).
Qed.


(** ** More on the initializer *)

Lemma serialize_initiate s :
  serialize (document (initiate s)) = serialize (document s).
Proof. rewrite document_initiate. by rewrite !serialize_jq_each. Qed.

Lemma initiate_frame s :
  isPageBeingRefreshed (initiate s) = isPageBeingRefreshed s
  ∧ cookie (initiate s) = cookie s
  ∧ notifications (initiate s) = notifications s
  ∧ requests (initiate s) = requests s
  ∧ timers (initiate s) = timers s.
Proof. done. Qed.

(** X8. Every call of the initializer adds one keyup listener to every
    [.search] element and none elsewhere, and leaves every [.add-popover]
    element with exactly one popover: after [n] calls a search field has
    [n] listeners more than before.  The markup of the page, the requests
    and the timers are not touched. *)
Theorem initiate_accumulates_listeners (n : nat) (s : state) (p : path)
    (e : element) :
  element_at p (document s) = Some e →
  ∃ e',
    element_at p (document (Nat.iter n initiate s)) = Some e'
    ∧ mk e' = mk e
    ∧ keyup e'
      = keyup e
        ++ (if has_class "search" e then replicate n SearchFilter else [])
    ∧ popover e'
      = (if has_class "add-popover" e
         then match n with 0 => popover e | S _ => [hover_popover] end
         else popover e)
    ∧ serialize (document (Nat.iter n initiate s)) = serialize (document s)
    ∧ requests (Nat.iter n initiate s) = requests s
    ∧ timers (Nat.iter n initiate s) = timers s
    ∧ initiations (Nat.iter n initiate s) = n + initiations s.
Proof.
  intros He. induction n as [|n (e' & He' & Hmk & Hkeyup & Hpop & IH)].
  - exists e. cbn [Nat.iter replicate].
    destruct (has_class "search" e), (has_class "add-popover" e);
      by rewrite app_nil_r.
  - exists (initiated e').
    change (Nat.iter (S n) initiate s) with (initiate (Nat.iter n initiate s)).
    rewrite element_at_initiate, He', serialize_initiate,
      initiations_initiate.
    destruct IH as (Hser & Hreq & Htim & ->). split_and!; try done.
    + unfold initiated. cbn [keyup].
      rewrite (matches_mk (ByClass "search") e' e Hmk : has_class _ _ = _).
      cbn [matches]. rewrite Hkeyup. destruct (has_class "search" e); [|done].
      by rewrite <- app_assoc, <- replicate_S_end.
    + unfold initiated. cbn [popover].
      rewrite (matches_mk (ByClass "add-popover") e' e Hmk
               : has_class _ _ = _).
      cbn [matches]. rewrite Hpop. by destruct (has_class "add-popover" e).
Qed.

(** ** More on a successful refresh *)

Lemma markup_label_jq_each sel f n :
  (∀ e cs, mk (f e cs) = mk e) →
  markup_label (jq_each sel f n) = markup_label n.
Proof.
  intros Hmk. destruct n as [t|e cs]; [done|]. cbn.
  by destruct (matches sel e); rewrite ?Hmk.
Qed.

Lemma markup_label_initiate q s :
  markup_label <$> node_at q (document (initiate s))
  = markup_label <$> node_at q (document s).
Proof.
  rewrite document_initiate, !node_at_jq_each.
  destruct (node_at q (document s)) as [n|]; [|done]. cbn.
  by rewrite !markup_label_jq_each.
Qed.

Lemma markup_label_label n n' :
  label n = label n' → markup_label n = markup_label n'.
Proof. destruct n, n'; cbn; congruence. Qed.

(** X9. On a page without a [#list] element a successful refresh
    changes no markup, whatever the fragment; the initializer runs all the
    same. *)
Theorem refresh_without_list (data : list html) (s : state) :
  getElementById "list" (document s) = None →
  serialize (document (refresh_success data s)) = serialize (document s)
  ∧ initiations (refresh_success data s) = S (initiations s)
  ∧ requests (refresh_success data s) = requests s
  ∧ timers (refresh_success data s) = timers s.
Proof.
  intros Hnone. unfold refresh_success. rewrite Hnone.
  by rewrite serialize_initiate.
Qed.

(** X10. A successful refresh replaces what is inside [#list] and
    nothing else: every node that is not inside the container keeps its
    markup (tag, id, classes, value, display state) or its text, so the
    search field keeps its query. *)
Theorem refresh_leaves_the_rest (data : list html) (s : state) (p q : path) :
  getElementById "list" (document s) = Some p →
  ¬ p `prefix_of` q →
  markup_label <$> node_at q (document (refresh_success data s))
  = markup_label <$> node_at q (document s).
Proof.
  intros Hp Hq. unfold refresh_success. rewrite Hp, markup_label_initiate.
  cbn. pose proof (label_alter_at (set_children (parse <$> data)) p q
                     (document s) Hq) as Hlabel.
  destruct (node_at q (alter_at _ p (document s))) as [n|],
    (node_at q (document s)) as [n'|]; try done.
  cbn in *. f_equal. apply markup_label_label. congruence.
Qed.

(** X11. After a successful refresh every element inside [#list] is
    bound exactly as one run of the initializer binds a new element: one
    keyup listener if it is a [.search] element and none otherwise, one
    popover if it is an [.add-popover] element and none otherwise.
    Listeners accumulate only on elements outside the container. *)
Theorem fresh_content_is_bound_once (data : list html) (s : state)
    (p k : path) (e : element) :
  getElementById "list" (document s) = Some p →
  k ≠ [] →
  element_at (p ++ k) (document (refresh_success data s)) = Some e →
  keyup e = (if has_class "search" e then [SearchFilter] else [])
  ∧ popover e = (if has_class "add-popover" e then [hover_popover] else [])
  ∧ modal_shown e = false.
Proof.
  intros Hp Hk. unfold refresh_success. rewrite Hp.
  rewrite element_at_initiate.
  change (document (set_document ?d _)) with d.
  change (jq_html data (option_list (Some p)) (document s))
    with (alter_at (set_children (parse <$> data)) p (document s)).
  unfold element_at at 1. rewrite node_at_app, node_at_alter_at.
  apply head_Some_elem_of, elem_of_select in Hp as (e0 & He0 & _).
  unfold element_at in He0.
  destruct (node_at p (document s)) as [[t|e0' cs]|]; [done| |done].
  cbn [fmap option_fmap option_map set_children mbind option_bind].
  destruct k as [|i k]; [done|]. cbn [node_at].
  rewrite list_lookup_fmap. destruct (data !! i) as [h|]; [|done].
  cbn [fmap option_fmap option_map mbind option_bind].
  pose proof (element_at_parse k h) as Hfresh. unfold element_at in Hfresh.
  destruct (node_at k (parse h)) as [[t|e1 cs1]|]; [done| |done].
  rewrite (Hfresh e1 eq_refl). intros [= <-]. done.
Qed.


(** ** More on the refresh loop *)

(** X12. While a refresh is held back, a tick changes nothing at all:
    however many ticks pass, the page, the requests and the pending timer
    are what they were. *)
Theorem ticks_change_nothing_while_held_back (n : nat) (s : state) :
  held_back (document s) →
  timers s = [next_tick] →
  run (replicate n Timeout) s = s.
Proof.
  intros Hheld Htimers. induction n as [|n IH]; [done|].
  cbn [replicate run step]. unfold timer_fires. rewrite Htimers.
  cbn [timer_task next_tick]. rewrite scheduleRefresh_skips by done.
  cbn [state_of].
  replace (setTimeout _ _ _) with s; [done|].
  destruct s. cbn in *. by subst.
Qed.

(** ** More on the due-date updater *)

(** X13. A due-date commit is sent for the innermost row around its
    target: when the element at [r] is a [tr] on the way to the target
    and no [tr] lies between it and the target, [newTime] calls [$.post]
    for [/mails/update/<id of that row>/], whatever rows enclose it
    further out, and the POST is issued whenever the [csrftoken] cookie
    can be read. *)
Theorem commit_updates_the_innermost_row (s : state) (target r : path)
    (e : element) :
  is_Some (node_at target (document s)) →
  r `prefix_of` target →
  element_at r (document s) = Some e →
  tag (mk e) = "tr" →
  (∀ r' e', r `prefix_of` r' → r' `prefix_of` target → r' ≠ r →
            element_at r' (document s) = Some e' → tag (mk e') ≠ "tr") →
  row_id target (document s) = from_option JString JUndefined (attr_id (mk e))
  ∧ ∃ settings,
      newTime target s = ajax settings s
      ∧ method settings = "POST"
      ∧ url settings = "/mails/update/"
                       +:+ from_option id "undefined" (attr_id (mk e)) +:+ "/"
      ∧ ∀ tok, getCookie (cookie s) "csrftoken" = Normal tok →
          ∃ q, requests (state_of (newTime target s)) = requests s ++ [q]
               ∧ url q = "/mails/update/"
                         +:+ from_option id "undefined" (attr_id (mk e))
                         +:+ "/".
Proof.
  intros [n Hn] Hpre He Htag Hinner.
  assert (row_id target (document s)
          = from_option JString JUndefined (attr_id (mk e))) as Hrow.
  { unfold row_id, jq_closest. cbn. rewrite Hn. cbn.
    destruct (nearest (ByTag "tr") target (document s)) as [r0|] eqn:Hr0.
    - pose proof (nearest_is_nearest _ _ _ _ r e Hr0 Hpre He) as Hrr0.
      apply nearest_Some in Hr0 as (Hpre0 & e0 & He0 & Hm0).
      cbn in Hm0. apply String.eqb_eq in Hm0.
      destruct (decide (r0 = r)) as [->|Hne].
      + cbn. rewrite He. by destruct (attr_id (mk e)).
      + destruct (Hinner r0 e0); try done. apply Hrr0. cbn.
        by apply String.eqb_eq.
    - pose proof (nearest_None _ _ _ r e Hr0 Hpre He) as Hm. cbn in Hm.
      apply String.eqb_neq in Hm. done. }
  split; [done|]. eexists. split; [reflexivity|].
  pose proof Hrow as Hrow'. unfold row_id in Hrow'. rewrite Hrow'.
  split; [done|]. split; [by destruct (attr_id (mk e))|]. intros tok Htok.
  change (ajax ?x s) with (newTime target s).
  rewrite newTime_issues, Htok, Hrow. eexists. split; [done|].
  by destruct (attr_id (mk e)).
Qed.

(** No [input] below the target: [.find('input')] is empty and [.val()]
    gives [undefined]. *)
Lemma new_due_undefined target doc :
  (∀ k e, k ≠ [] → element_at (target ++ k) doc = Some e →
          tag (mk e) ≠ "input") →
  new_due target doc = JUndefined.
Proof.
  intros Hno. unfold new_due, jq_find. cbn.
  destruct (node_at target doc) as [n|] eqn:Hn; [|done]. cbn.
  rewrite app_nil_r.
  destruct (select_below (ByTag "input") n) as [|k l] eqn:Hsel; [done|].
  assert (k ∈ select_below (ByTag "input") n) as Hk
    by (rewrite Hsel; apply list_elem_of_here).
  destruct n as [t|e0 cs]; [by apply elem_of_nil in Hk|]. cbn in Hk.
  apply elem_of_indexed in Hk as (j & q & c & -> & Hc & Hq).
  apply elem_of_select in Hq as (e & He & Hm).
  destruct (Hno (j :: q) e); [done| |by apply String.eqb_eq].
  unfold element_at in *. rewrite node_at_app, Hn. cbn. by rewrite Hc.
Qed.

(** X14. A commit on a target with no [input] below it still calls
    [$.post], with the due date [undefined]; when that request succeeds
    the page is left exactly as the response found it, because [.text]
    with [undefined] is the reader.  For a row identifier of word
    characters, or none, the callback returns. *)
Theorem commit_without_input_writes_nothing (s : state) (target : path) :
  (∀ k e, k ≠ [] → element_at (target ++ k) (document s) = Some e →
          tag (mk e) ≠ "input") →
  ∃ settings,
    newTime target s = ajax settings s
    ∧ method settings = "POST"
    ∧ data settings = [("due", JUndefined)]
    ∧ (∀ r payload s1, success r = success settings →
         state_of (respond_success r payload s1) = s1)
    ∧ (plain_id (to_string (row_id target (document s))) = true →
       ∀ r payload s1, success r = success settings →
         respond_success r payload s1 = Returns s1).
Proof.
  intros Hno. pose proof (new_due_undefined _ _ Hno) as Hdue.
  unfold new_due in Hdue.
  eexists. split; [reflexivity|]. rewrite Hdue.
  split; [done|]. split; [done|]. cbn [success].
  unfold respond_success, newTime_done. split.
  - intros r payload s1 ->. destruct (jq_id _ _) as [q|]; [|done].
    cbn. by destruct s1.
  - intros Hid r payload s1 ->. unfold jq_id, plain_id, row_id in *.
    rewrite all_chars_append, Hid. cbn. by destruct s1.
Qed.

(** A write at or below [p] is lost when the children at [p] are
    replaced. *)
Lemma alter_at_set_children_below X Y p : ∀ c n,
  p `prefix_of` c →
  alter_at (set_children X) p (alter_at (set_children Y) c n)
  = alter_at (set_children X) p n.
Proof.
  induction p as [|i p IH]; intros c n Hpc.
  - cbn. destruct n as [t|e cs]; destruct c as [|j c]; done.
  - destruct c as [|j c]; [by apply prefix_nil_not in Hpc|].
    pose proof (prefix_cons_inv_1 _ _ _ _ Hpc) as ->.
    apply prefix_cons_inv_2 in Hpc.
    destruct n as [t|e cs]; [done|]. cbn. f_equal.
    rewrite list_alter_alter_eq. apply list_alter_ext; [|done].
    intros x _. cbn. by apply IH.
Qed.

Lemma head_select_set_children_below sel cs' p : ∀ c n,
  head (select sel n) = Some p →
  p `prefix_of` c →
  head (select sel (alter_at (set_children cs') c n)) = Some p.
Proof.
  induction p as [|i p IH]; intros c [t|e cs]; try done; cbn.
  - destruct (matches sel e) eqn:Hm.
    + intros _ _. destruct c as [|j c]; cbn; by rewrite Hm.
    + cbn. intros (j & ? & ? & ? & _)%head_Some_elem_of%elem_of_indexed. done.
  - destruct (matches sel e) eqn:Hm; [done|]. cbn. intros H Hpc.
    destruct c as [|j c]; [by apply prefix_nil_not in Hpc|].
    pose proof (prefix_cons_inv_1 _ _ _ _ Hpc) as ->.
    apply prefix_cons_inv_2 in Hpc. cbn. rewrite Hm. cbn.
    apply (head_indexed_alter _ _ j p cs 0); [done|].
    intros x _ Hx. by apply IH.
Qed.

(** X15. Storing the same due date twice shows what storing it once
    shows: the second response leaves the page as the first one made
    it. *)
Theorem due_date_patch_is_idempotent (s : state) (id v : string) :
  plain_id id = true →
  ∃ s1, newTime_done (JString id) (JString v) s = Returns s1
        ∧ newTime_done (JString id) (JString v) s1 = Returns s1.
Proof.
  intros Hid. rewrite newTime_done_plain by done. eexists. split; [done|].
  rewrite newTime_done_plain by done. f_equal.
  change (document (set_document ?d _)) with d.
  destruct (getElementById ("due-" +:+ id) (document s)) as [c|] eqn:Hc;
    cbn [from_option].
  - unfold getElementById in *.
    rewrite (head_select_set_children _ _ _ _ Hc). cbn [from_option].
    rewrite alter_at_set_children_below by done. by destruct s.
  - rewrite Hc. by destruct s.
Qed.

(** X16. A refresh discards a due date patched into the list: when the
    cell [#due-id] lies inside [#list], the refresh that follows the
    update leaves the page exactly as it would have without the update,
    so the date shown is the one the server sends with the table. *)
Theorem refresh_overwrites_the_patch (data : list html) (s : state)
    (p c : path) (id v : string) :
  plain_id id = true →
  getElementById "list" (document s) = Some p →
  getElementById ("due-" +:+ id) (document s) = Some c →
  p `prefix_of` c →
  ∃ s1, newTime_done (JString id) (JString v) s = Returns s1
        ∧ refresh_success data s1 = refresh_success data s.
Proof.
  intros Hid Hp Hc Hpc. rewrite newTime_done_plain, Hc by done.
  eexists. split; [done|]. unfold refresh_success.
  change (document (set_document ?d _)) with d. cbn [from_option].
  unfold getElementById in *.
  rewrite (head_select_set_children_below _ _ _ _ _ Hp Hpc), Hp.
  change (jq_html data (option_list (Some p)) ?d)
    with (alter_at (set_children (parse <$> data)) p d).
  rewrite alter_at_set_children_below by done. done.
Qed.


(** ** Bindings over a whole run *)

(** X17. Whatever happens after the load of a page, the bindings follow
    the classes: an element carries keyup listeners if and only if it is
    a [.search] element, and a popover if and only if it is an
    [.add-popover] element, and then exactly the hover popover of the
    initializer. *)
Theorem bindings_follow_classes (h : html) (c : string) (evs : list event)
    (q : path) (e : element) :
  element_at q (document (run evs (state_of (main (parse h) c)))) = Some e →
  (of_class "search" e → keyup e ≠ [])
  ∧ (¬ of_class "search" e → keyup e = [])
  ∧ (of_class "add-popover" e → popover e = [hover_popover])
  ∧ (¬ of_class "add-popover" e → popover e = []).
Proof. exact (well_bound_run evs _ (well_bound_main h c) q e). Qed.

(** ** The load of the page *)

Lemma visible_jq_each sel f p :
  (∀ e cs, mk (f e cs) = mk e) →
  ∀ n, visible p (jq_each sel f n) = visible p n.
Proof.
  intros Hmk. induction p as [|i p IH]; intros [t|e cs]; cbn; try done.
  - by destruct (matches sel e); rewrite ?Hmk.
  - rewrite list_lookup_fmap. f_equal; [by destruct (matches sel e); rewrite ?Hmk|].
    destruct (cs !! i) as [c|]; cbn; [apply IH|done].
Qed.

Lemma jq_is_visible_jq_each sel f q n :
  (∀ e cs, mk (f e cs) = mk e) →
  jq_is_visible q (jq_each sel f n) = jq_is_visible q n.
Proof.
  intros Hmk. unfold jq_is_visible. induction q as [|p q IH]; [done|].
  cbn. by rewrite visible_jq_each, IH.
Qed.

Lemma jq_val_jq_each sel f q n :
  (∀ e cs, mk (f e cs) = mk e) →
  jq_val q (jq_each sel f n) = jq_val q n.
Proof.
  intros Hmk. destruct q as [|p q]; [done|]. cbn.
  rewrite element_at_jq_each. unfold element_at.
  destruct (node_at p n) as [[t|e cs]|]; [done| |done].
  unfold rewritten. by destruct (matches sel e); rewrite ?Hmk.
Qed.

(** Whether a refresh is held back depends on the markup only. *)
Lemma held_back_jq_each sel f n :
  (∀ e cs, mk (f e cs) = mk e) →
  held_back (jq_each sel f n) ↔ held_back n.
Proof.
  intros Hmk. rewrite <- !refresh_test_spec. unfold jq_select.
  by rewrite !(select_jq_each_mk _ _ _ Hmk), !jq_is_visible_jq_each,
    jq_val_jq_each.
Qed.

Lemma held_back_initiate s :
  held_back (document (initiate s)) ↔ held_back (document s).
Proof. rewrite document_initiate. by rewrite !held_back_jq_each. Qed.

(** X18. The load of the page: the initializer has run once and bound
    every element of the page as loaded, and the first tick has run at
    once.  On a page that holds the refresh back nothing is requested and
    the next tick is pending.  On any other page the table is fetched
    immediately, with the CSRF header of the cookie, and the next tick is
    pending, when the [csrftoken] cookie can be read; when reading it
    throws, the script ends with the exception: nothing is requested and
    no tick is pending. *)
Theorem load_binds_and_fetches (doc : node) (c : string) :
  (∀ p, element_at p (document (state_of (main doc c)))
        = initiated <$> element_at p doc)
  ∧ initiations (state_of (main doc c)) = 1
  ∧ notifications (state_of (main doc c)) = []
  ∧ isPageBeingRefreshed (state_of (main doc c)) = false
  ∧ (held_back doc →
     ∃ s1, main doc c = Returns s1
           ∧ requests s1 = [] ∧ timers s1 = [next_tick])
  ∧ (¬ held_back doc →
     match getCookie c "csrftoken" with
     | Normal tok =>
         ∃ s1, main doc c = Returns s1
               ∧ requests s1 = [table_request [("X-CSRFToken", tok)]]
               ∧ timers s1 = [next_tick]
     | Throw e =>
         ∃ s1, main doc c = Throws e s1
               ∧ requests s1 = [] ∧ timers s1 = []
     end).
Proof.
  unfold main.
  set (s := {| isPageBeingRefreshed := false; document := doc; cookie := c;
               notifications := []; requests := []; timers := [];
               initiations := 0 |}).
  assert (held_back (document (initiate s)) ↔ held_back doc) as Hheld
    by apply held_back_initiate.
  split_and!.
  - intros p. rewrite document_scheduleRefresh. apply element_at_initiate.
  - by rewrite initiations_scheduleRefresh.
  - destruct (held_back_or_not (document (initiate s))) as [H|H].
    + by rewrite scheduleRefresh_skips.
    + rewrite scheduleRefresh_fetches by done. by destruct (getCookie _ _).
  - destruct (held_back_or_not (document (initiate s))) as [H|H].
    + by rewrite scheduleRefresh_skips.
    + rewrite scheduleRefresh_fetches by done. by destruct (getCookie _ _).
  - intros H%Hheld. rewrite scheduleRefresh_skips by done. by eexists.
  - intros H. rewrite <- Hheld in H. rewrite scheduleRefresh_fetches by done.
    change (cookie (initiate s)) with c.
    destruct (getCookie c "csrftoken"); by eexists.
Qed.

(** X19. The initializer runs once per table fragment that arrives and
    never otherwise: over any run, the number of its runs grows by the
    number of successful responses to table requests that were issued. *)
Theorem initiate_runs_once_per_table_response (evs : list event)
    (s : state) :
  initiations (run evs s) = initiations s + table_responses evs s.
Proof.
  revert s. induction evs as [|ev evs IH]; intros s; [cbn; lia|].
  cbn [run table_responses]. rewrite IH.
  destruct ev as [|r payload|r status|p|].
  - cbn [step]. unfold timer_fires.
    destruct (timers s) as [|[[] delay] rest]; [done|]. cbn [timer_task].
    by rewrite initiations_scheduleRefresh.
  - cbn [step]. unfold respond_success.
    destruct (success r) as [|id due].
    + case_bool_decide; case_decide; try done. cbn [state_of].
      unfold refresh_success. rewrite initiations_initiate. cbn. lia.
    + case_decide; [|done]. unfold newTime_done.
      by destruct (jq_id _ _).
  - cbn [step]. case_decide; [|done]. unfold respond_error, error.
    by destruct (isPageBeingRefreshed s).
  - cbn [step]. unfold keyup_event. by destruct (element_at p (document s)).
  - done.
Qed.

End Script.
(** ** The script on the sample page *)

Lemma sample_page_idle : ¬ held_back (sample_page "").
Proof. intros H%refresh_test_spec. vm_compute in H. discriminate. Qed.

(** The claim C1 makes fails on a page that nothing holds back when the
    [csrftoken] cookie is a malformed escape: reading it throws, and the
    tick issues no request. *)
Lemma tick_without_fetch_on_malformed_cookie :
  ¬ held_back (document malformed_state)
  ∧ getCookie sample_decode (cookie malformed_state) "csrftoken"
    = Throw URIError
  ∧ scheduleRefresh sample_decode malformed_state
    = Throws URIError malformed_state
  ∧ requests (state_of (scheduleRefresh sample_decode malformed_state)) = [].
Proof. split_and!; [apply sample_page_idle|reflexivity..]. Qed.

(** The claim C8 makes fails in the same state: the tick registers no
    next tick, and no later tick runs; with that cookie the loop does not
    even start. *)
Lemma loop_stops_on_malformed_cookie :
  timers malformed_state = [next_tick]
  ∧ timers (step sample_RegExp sample_select sample_decode Timeout
              malformed_state) = []
  ∧ timers (run sample_RegExp sample_select sample_decode
              [Timeout; Timeout; Timeout] malformed_state) = []
  ∧ timers (state_of (main sample_decode (sample_page "") "csrftoken=%"))
    = [].
Proof. split_and!; reflexivity. Qed.

(** The claim C5 makes for absolute URLs fails on one whose scheme is
    written in capitals, and on one with another scheme: the URL is
    absolute, and the header is attached.  The claim it makes for the
    other URLs fails on a cookie that is a malformed escape, where nothing
    is attached, and on a cookie with an escape, where the header carries
    the decoded value, not the value of the cookie. *)
Lemma csrf_header_on_capitalised_scheme :
  (is_absolute "HTTPS://example.com/api" = true
   ∧ beforeSend sample_decode "csrftoken=tok"
       {| method := "GET"; url := "HTTPS://example.com/api";
          data := []; success := RefreshSuccess; requestHeaders := [] |}
     = Normal {| method := "GET"; url := "HTTPS://example.com/api";
                 data := []; success := RefreshSuccess;
                 requestHeaders := [("X-CSRFToken", JString "tok")] |})
  ∧ (is_absolute "ftp://example.com/mails" = true
     ∧ beforeSend sample_decode "csrftoken=tok"
         {| method := "GET"; url := "ftp://example.com/mails";
            data := []; success := RefreshSuccess; requestHeaders := [] |}
       = Normal {| method := "GET"; url := "ftp://example.com/mails";
                   data := []; success := RefreshSuccess;
                   requestHeaders := [("X-CSRFToken", JString "tok")] |})
  ∧ (is_absolute "/mails/table/" = false
     ∧ beforeSend sample_decode "csrftoken=%" (table_request [])
       = Throw URIError)
  ∧ (cookie_value "csrftoken" [("csrftoken", "a%20b")] = Some "a%20b"
     ∧ beforeSend sample_decode "csrftoken=a%20b" (table_request [])
       = Normal (table_request [("X-CSRFToken", JString "a b")])).
Proof. split_and!; reflexivity. Qed.

Lemma csrf_header_on_sample_request :
  beforeSend sample_decode "sessionid=abc; csrftoken=tok" (table_request [])
  = Normal (setRequestHeader "X-CSRFToken" (JString "tok") (table_request [])).
Proof.
  destruct (csrf_header_by_url_prefix sample_decode
              [("sessionid", "abc"); ("csrftoken", "tok")] (table_request [])
              eq_refl) as (_ & H & _).
  apply H; intros [rest Hrest]; discriminate.
Defined.

(** The claim C9 makes fails on the value: without the cookie the header
    carries [null], which is not the empty string. *)
Lemma csrf_header_null_is_not_empty :
  beforeSend sample_decode "sessionid=abc" (table_request [])
  = Normal (table_request [("X-CSRFToken", JNull)])
  ∧ header "X-CSRFToken" [("X-CSRFToken", JNull)] = Some JNull
  ∧ JNull ≠ JString ""
  ∧ to_string JNull = "null"
  ∧ "null" ≠ "".
Proof. split_and!; done. Qed.

Lemma csrf_header_on_sample_request_without_cookie :
  beforeSend sample_decode "sessionid=abc" (table_request [])
  = Normal (setRequestHeader "X-CSRFToken" JNull (table_request []))
  ∧ requestHeaders (setRequestHeader "X-CSRFToken" JNull (table_request []))
    = [] ++ [("X-CSRFToken", JNull)]
  ∧ JNull ≠ JString ""
  ∧ to_string JNull = "null".
Proof.
  exact (csrf_header_without_cookie sample_decode [("sessionid", "abc")]
           (table_request []) eq_refl eq_refl eq_refl).
Defined.

Lemma sample_refresh_replaces_list :
  ∃ r s1 s',
    scheduleRefresh sample_decode (sample_state "") = Returns s1
    ∧ requests s1 = [] ++ [r]
    ∧ initiations s1 = 0
    ∧ respond_success sample_select r [HText "No mail"] (sample_state "")
      = Returns s'
    ∧ getElementById "list" (document s') = Some [1]
    ∧ innerHTML <$> node_at [1] (document s') = Some [HText "No mail"]
    ∧ initiations s' = 1.
Proof.
  apply (refresh_success_replaces_list sample_select sample_decode
           (sample_state "") (sample_state "") [HText "No mail"] [1]
           (JString "tok")).
  - apply sample_page_idle.
  - reflexivity.
  - reflexivity.
Defined.

Lemma sample_search_field_bound_twice :
  ∃ e',
    element_at [0] (document (initiate (initiate (sample_state ""))))
    = Some e'
    ∧ (has_class "add-popover" (fresh (tagged "input" None ["search"] ""))
       = true → popover e' = [hover_popover])
    ∧ (has_class "search" (fresh (tagged "input" None ["search"] "")) = true →
       keyup e' = [] ++ [SearchFilter; SearchFilter]).
Proof.
  apply (initiate_twice_bindings (sample_state "") [0]). reflexivity.
Defined.


Lemma sample_due_date_update :
  ∃ r,
    newTime sample_decode [1; 0; 0; 3] (sample_state "")
    = Returns (set_requests ([] ++ [r]) (sample_state ""))
    ∧ method r = "POST"
    ∧ url r = "/mails/update/42/"
    ∧ data r = [("due", JString "2024-01-01")]
    ∧ (∀ s1 payload, ∃ s2,
         respond_success sample_select r payload s1 = Returns s2
         ∧ requests s2 = requests s1 ∧ timers s2 = timers s1
         ∧ initiations s2 = initiations s1
         ∧ (∀ c, first_element (with_id "due-42") (document s1) c →
                 (∃ e cs, node_at c (document s1) = Some (Elem e cs)
                          ∧ node_at c (document s2)
                            = Some (Elem e (text_nodes "2024-01-01")))
                 ∧ textContent <$> node_at c (document s2)
                   = Some "2024-01-01"
                 ∧ ∀ q, ¬ c `prefix_of` q →
                        label <$> node_at q (document s2)
                        = label <$> node_at q (document s1))
         ∧ ((∀ c e, element_at c (document s1) = Some e →
                    ¬ with_id "due-42" e) →
            document s2 = document s1))
    ∧ (∀ s1 status,
         (∀ q, textContent <$> node_at q (document (respond_error r status s1))
               = textContent <$> node_at q (document s1))
         ∧ (∀ q e, element_at q (document s1) = Some e →
                   ¬ of_class "modal" e →
                   element_at q (document (respond_error r status s1))
                   = Some e)
         ∧ requests (respond_error r status s1) = requests s1).
Proof.
  apply (due_date_update_patches_cell sample_select sample_decode
           (sample_state "") [1; 0; 0; 3] "42" "2024-01-01" (JString "tok"));
    reflexivity.
Defined.

(** The claim C7 makes fails for a row identifier with a dot: [$] reads
    [#due-a.b] as the id [due-a] with the class [b], so the cell whose id
    is [due-a.b] keeps its text and another element gets the new one. *)
Lemma due_date_update_on_dotted_id :
  row_id [0; 1] dotted_page = JString "a.b"
  ∧ new_due [0; 1] dotted_page = JString "new"
  ∧ (attr_id <$> (mk <$> element_at [0; 0] dotted_page))
    = Some (Some "due-a.b")
  ∧ ∃ r s2,
      newTime sample_decode [0; 1] dotted_state
      = Returns (set_requests [r] dotted_state)
      ∧ url r = "/mails/update/a.b/"
      ∧ respond_success sample_select r [] (set_requests [r] dotted_state)
        = Returns s2
      ∧ textContent <$> node_at [0; 0] (document s2) = Some "old"
      ∧ textContent <$> node_at [1] (document s2) = Some "new".
Proof.
  split_and!; [reflexivity..|]. eexists _, _. split_and!; reflexivity.
Qed.


(** The page as loaded, then a tick whose fetch succeeds: the search
    field, which lies outside [#list], has the listener bound twice. *)
Example search_field_after_load_and_refresh :
  keyup
    <$> element_at [0]
          (document
             (run sample_RegExp sample_select sample_decode
                [Succeeded (table_request [("X-CSRFToken", JString "tok")])
                   sample_table]
                (state_of (main sample_decode (sample_page "") "csrftoken=tok"))))
  = Some [SearchFilter; SearchFilter].
Proof. reflexivity. Qed.

(** A keystroke with the query FOO leaves the first row shown and the
    second hidden. *)
Example search_for_FOO_on_sample_page :
  displayed ∘ mk
    <$> element_at [1; 0; 0]
          (document (keyup_event sample_RegExp [0] (initiate (sample_state "FOO"))))
  = Some true
  ∧ displayed ∘ mk
      <$> element_at [1; 0; 1]
            (document
               (keyup_event sample_RegExp [0] (initiate (sample_state "FOO"))))
    = Some false.
Proof. split; reflexivity. Qed.

(** The nearest row decides the identifier, even when it has none and a
    row further up has one. *)
Example nearest_row_without_id :
  row_id [0; 0]
    (parse (HElem (tagged "tr" (Some "7") [] "")
              [HElem (tagged "tr" None [] "")
                 [HElem (tagged "td" None [] "") []]]))
  = JUndefined.
Proof. reflexivity. Qed.

(** A tick while the search field holds [abc]: no fetch, and the next tick
    is scheduled. *)
Example tick_while_searching :
  scheduleRefresh sample_decode (sample_state "abc")
  = Returns (set_timers [next_tick] (sample_state "abc")).
Proof. reflexivity. Qed.

(** [getCookie] on a cookie string with two cookies. *)
Example getCookie_second_cookie :
  getCookie sample_decode "sessionid=abc; csrftoken=tok" "csrftoken"
  = Normal (JString "tok")
  ∧ getCookie sample_decode "sessionid=abc; csrftoken=tok" "token"
    = Normal JNull
  ∧ getCookie sample_decode "" "csrftoken" = Normal JNull.
Proof. split_and!; reflexivity. Qed.

(** A failed request on the sample page, before and after the page is
    left. *)
Example failure_on_sample_page :
  text <$> notifications (error 404 (sample_state ""))
  = ["404 - Page not found"]
  ∧ text <$> notifications (error 500 (sample_state ""))
    = ["Ooops, something went wrong"]
  ∧ notifications (error 500 (onbeforeunload (sample_state ""))) = [].
Proof. split_and!; reflexivity. Qed.

(** ** More of the script on the sample page *)

Lemma getCookie_on_padded_cookie_string :
  getCookie sample_decode "sessionid=abc;  csrftoken=tok " "csrftoken"
  = Normal (JString "tok").
Proof.
  exact (getCookie_reads_first_cookie sample_decode
           [ {| pad_before := ""; the_cookie := ("sessionid", "abc");
                pad_after := "" |};
             {| pad_before := "  "; the_cookie := ("csrftoken", "tok");
                pad_after := " " |} ]
           "csrftoken" eq_refl eq_refl).
Defined.

Lemma sample_filter_for_foo_and_FOO :
  filtered (test_literal "foo") (sample_page "")
  = filtered (test_literal "FOO") (sample_page "")
  ∧ ∀ e cs e' cs',
      fold_case (row_text (Elem e cs)) = fold_case (row_text (Elem e' cs')) →
      displayed (mk (filter_row (test_literal "foo") e cs))
      = displayed (mk (filter_row (test_literal "FOO") e' cs')).
Proof.
  exact (filter_ignores_case sample_RegExp "foo" "FOO" _ _ (sample_page "")
           eq_refl eq_refl eq_refl eq_refl eq_refl).
Defined.

Lemma sample_row_shown_for_shorter_query :
  ∃ e, element_at [1; 0; 0] (filtered (test_literal "foo") (sample_page ""))
       = Some e
       ∧ displayed (mk e) = true.
Proof.
  apply (longer_query_shows_fewer_rows sample_RegExp "at " "foo" "'s" _
           (test_literal "at foo's") (sample_page "") [1; 0; 0]
           (fresh (tagged "tr" (Some "42") ["item"] ""))); reflexivity.
Defined.

Lemma sample_keystroke_with_two_listeners :
  keyup_event sample_RegExp [0] (initiate (initiate (sample_state "foo")))
  = set_document
      (filtered (test_literal "foo")
         (document (initiate (initiate (sample_state "foo")))))
      (initiate (initiate (sample_state "foo")))
  ∧ ∀ q,
      match node_at q (document (initiate (initiate (sample_state "foo")))) with
      | None =>
          node_at q
            (filtered (test_literal "foo")
               (document (initiate (initiate (sample_state "foo")))))
          = None
      | Some (Text t) =>
          node_at q
            (filtered (test_literal "foo")
               (document (initiate (initiate (sample_state "foo")))))
          = Some (Text t)
      | Some (Elem a cs) =>
          ∃ a',
            element_at q
              (filtered (test_literal "foo")
                 (document (initiate (initiate (sample_state "foo")))))
            = Some a'
            ∧ set_displayed true a' = set_displayed true a
            ∧ (has_class "item" a = false → a' = a)
      end.
Proof.
  apply (keystroke_runs_the_filter_once sample_RegExp
           (initiate (initiate (sample_state "foo"))) [0]
           (initiated (initiated (fresh (tagged "input" None ["search"] "foo"))))).
  - reflexivity.
  - discriminate.
  - intros q a [k Hk] Hne Ha. destruct q as [|i [|j q]].
    + vm_compute in Ha. injection Ha as <-. reflexivity.
    + injection Hk as <- _. contradiction.
    + destruct k; discriminate.
  - reflexivity.
  - reflexivity.
Defined.

Lemma sample_search_field_after_three_calls :
  ∃ e',
    element_at [0] (document (Nat.iter 3 initiate (sample_state ""))) = Some e'
    ∧ mk e' = tagged "input" None ["search"] ""
    ∧ keyup e' = [] ++ [SearchFilter; SearchFilter; SearchFilter]
    ∧ popover e' = []
    ∧ serialize (document (Nat.iter 3 initiate (sample_state "")))
      = serialize (sample_page "")
    ∧ requests (Nat.iter 3 initiate (sample_state "")) = []
    ∧ timers (Nat.iter 3 initiate (sample_state "")) = []
    ∧ initiations (Nat.iter 3 initiate (sample_state "")) = 3 + 0.
Proof.
  apply (initiate_accumulates_listeners 3 (sample_state "") [0]
           (fresh (tagged "input" None ["search"] ""))).
  reflexivity.
Defined.

Lemma sample_refresh_on_bare_page :
  serialize (document (refresh_success sample_table bare_state))
  = serialize bare_page
  ∧ initiations (refresh_success sample_table bare_state) = 1
  ∧ requests (refresh_success sample_table bare_state) = []
  ∧ timers (refresh_success sample_table bare_state) = [].
Proof.
  exact (refresh_without_list sample_table bare_state eq_refl).
Defined.

Lemma sample_refresh_keeps_the_query :
  markup_label
    <$> node_at [0]
          (document (refresh_success [HText "No mail"] (sample_state "foo")))
  = Some (inr (tagged "input" None ["search"] "foo")).
Proof.
  apply (refresh_leaves_the_rest [HText "No mail"] (sample_state "foo")
           [1] [0]).
  - reflexivity.
  - intros [k Hk]. discriminate.
Defined.

Lemma sample_popover_after_second_refresh :
  ∃ e,
    element_at [1; 0; 0; 4]
      (document (refresh_success sample_table (initiate (sample_state ""))))
    = Some e
    ∧ keyup e = []
    ∧ popover e = [hover_popover]
    ∧ modal_shown e = false.
Proof.
  eexists. split; [reflexivity|].
  apply (fresh_content_is_bound_once sample_table (initiate (sample_state ""))
           [1] [0; 0; 4]).
  - reflexivity.
  - discriminate.
  - reflexivity.
Defined.

Lemma sample_ticks_while_searching :
  run sample_RegExp sample_select sample_decode (replicate 3 Timeout)
    (state_of (main sample_decode (sample_page "abc") "csrftoken=tok"))
  = state_of (main sample_decode (sample_page "abc") "csrftoken=tok").
Proof.
  apply (ticks_change_nothing_while_held_back sample_RegExp sample_select
           sample_decode 3
           (state_of (main sample_decode (sample_page "abc") "csrftoken=tok"))).
  - apply refresh_test_spec. reflexivity.
  - reflexivity.
Defined.

Lemma sample_commit_in_the_first_row :
  row_id [1; 0; 0; 3; 0] (sample_page "") = JString "42"
  ∧ ∃ settings,
      newTime sample_decode [1; 0; 0; 3; 0] (sample_state "")
      = ajax sample_decode settings (sample_state "")
      ∧ method settings = "POST"
      ∧ url settings = "/mails/update/42/"
      ∧ ∀ tok,
          getCookie sample_decode "sessionid=abc; csrftoken=tok" "csrftoken"
          = Normal tok →
          ∃ q, requests
                 (state_of
                    (newTime sample_decode [1; 0; 0; 3; 0] (sample_state "")))
               = [] ++ [q]
               ∧ url q = "/mails/update/42/".
Proof.
  apply (commit_updates_the_innermost_row sample_decode (sample_state "")
           [1; 0; 0; 3; 0] [1; 0; 0]
           (fresh (tagged "tr" (Some "42") ["item"] ""))).
  - eexists. reflexivity.
  - exists [3; 0]. reflexivity.
  - reflexivity.
  - reflexivity.
  - intros r' e' [k1 ->] [k2 Hk2] Hne He Htag.
    destruct k1 as [|a [|b [|c k1]]].
    + contradiction.
    + injection Hk2 as <- _. vm_compute in He. injection He as <-.
      discriminate.
    + injection Hk2 as <- <- _. vm_compute in He. injection He as <-.
      discriminate.
    + destruct k2; discriminate.
Defined.

Lemma sample_commit_on_the_search_field :
  ∃ settings,
    newTime sample_decode [0] (sample_state "")
    = ajax sample_decode settings (sample_state "")
    ∧ method settings = "POST"
    ∧ data settings = [("due", JUndefined)]
    ∧ (∀ r payload s1, success r = success settings →
         state_of (respond_success sample_select r payload s1) = s1)
    ∧ (plain_id "undefined" = true →
       ∀ r payload s1, success r = success settings →
         respond_success sample_select r payload s1 = Returns s1).
Proof.
  apply (commit_without_input_writes_nothing sample_select sample_decode
           (sample_state "") [0]).
  intros k e Hk He. destruct k as [|i k]; [contradiction|]. discriminate.
Defined.

Lemma sample_due_date_stored_twice :
  ∃ s1,
    newTime_done sample_select (JString "42") (JString "2024-01-01")
      (sample_state "")
    = Returns s1
    ∧ newTime_done sample_select (JString "42") (JString "2024-01-01") s1
      = Returns s1.
Proof.
  exact (due_date_patch_is_idempotent sample_select (sample_state "") "42"
           "2024-01-01" eq_refl).
Defined.

Lemma sample_refresh_after_update :
  ∃ s1,
    newTime_done sample_select (JString "42") (JString "2024-01-01")
      (sample_state "")
    = Returns s1
    ∧ refresh_success sample_table s1
      = refresh_success sample_table (sample_state "").
Proof.
  apply (refresh_overwrites_the_patch sample_select sample_table
           (sample_state "") [1] [1; 0; 0; 2] "42" "2024-01-01").
  - reflexivity.
  - reflexivity.
  - reflexivity.
  - exists [0; 0; 2]. reflexivity.
Defined.

Lemma sample_bindings_after_a_run :
  (of_class "search" (initiated (initiated (fresh (tagged "input" None ["search"] ""))))
   → keyup (initiated (initiated (fresh (tagged "input" None ["search"] ""))))
     ≠ [])
  ∧ (¬ of_class "search"
         (initiated (initiated (fresh (tagged "input" None ["search"] ""))))
     → keyup (initiated (initiated (fresh (tagged "input" None ["search"] ""))))
       = [])
  ∧ (of_class "add-popover"
       (initiated (initiated (fresh (tagged "input" None ["search"] ""))))
     → popover
         (initiated (initiated (fresh (tagged "input" None ["search"] ""))))
       = [hover_popover])
  ∧ (¬ of_class "add-popover"
         (initiated (initiated (fresh (tagged "input" None ["search"] ""))))
     → popover
         (initiated (initiated (fresh (tagged "input" None ["search"] ""))))
       = []).
Proof.
  apply (bindings_follow_classes sample_RegExp sample_select sample_decode
           (sample_markup "") "csrftoken=tok"
           [ Timeout;
             Succeeded (table_request [("X-CSRFToken", JString "tok")])
               sample_table;
             KeyUp [0] ]
           [0]).
  vm_compute. reflexivity.
Defined.
